(** * filetree: lookup of items arranged in POSIX-style file hierarchies

    A shallow embedding of [internal/filetree/filetree.go] together with the
    two functions of Go's [path] package it calls ([path.Clean] and
    [path.Split]), followed by the properties of [Put], [Get] and
    [LongestPrefix].

    Go strings are byte sequences: they are modelled as [string], whose
    characters are the 8-bit [ascii].  The index [map[string]Entry] is a
    [gmap string Entry]; reading a missing key of a Go map yields the zero
    value of the element type.

    The slice [Children] is a [list Entry].  [Put] extends only the slice
    held by the index under a key, one [append] after the other, and never
    a copy of it held as a child of another entry, so no [append] of the
    package writes over elements that another slice header still shows:
    the elements of every slice are those of the list.

    [Put] updates the tree in place; here it maps a tree to the tree after
    the call.  [ModTime] and [Sys] return constants and are left out. *)

From Stdlib Require Import ZArith Lia List Ascii String Bool Arith.
From stdpp Require Import base option strings gmap.
From Equations Require Import Equations.
Import ListNotations.

Local Open Scope string_scope.

(* stdpp blocks the unfolding of string concatenation; the proofs below
   compute with it on explicit heads. *)
#[local] Arguments String.append !_ _ / : simpl nomatch.

(** ** Byte strings *)

Module GoString.

(** [len(s)]. *)
Definition len (s : string) : nat := String.length s.

(** [s[:k]]. *)
Definition slice_to (s : string) (k : nat) : string := substring 0 k s.

(** [s[k:]]. *)
Definition slice_from (s : string) (k : nat) : string :=
  substring k (String.length s - k) s.

(** [s[i]], for [i] in range (the code never reads out of range). *)
Definition byte_at (s : string) (i : nat) : ascii :=
  match String.get i s with
  | Some c => c
  | None => Ascii.zero
  end.

(** [s[:len(s)-1]], the idiom both loops of the package use. *)
Definition chop (s : string) : string := slice_to s (len s - 1).

(** [bytealg.LastIndexByteString]: the index of the last occurrence of
    [c] in [s], or [-1]. *)
Fixpoint LastIndexByte (s : string) (c : ascii) : Z :=
  match s with
  | EmptyString => (-1)%Z
  | String a s' =>
      let i := LastIndexByte s' c in
      if (0 <=? i)%Z then (i + 1)%Z
      else if Ascii.eqb a c then 0%Z else (-1)%Z
  end.

End GoString.

Import GoString.

Definition slash : ascii := "/"%char.
Definition dot : ascii := "."%char.

(** ** Package [path] *)

Module path.

(** [func Split(path string) (dir, file string)]:
    [i := LastIndexByte(path, '/'); return path[:i+1], path[i+1:]]. *)
Definition Split (p : string) : string * string :=
  let i := LastIndexByte p slash in
  (slice_to p (Z.to_nat (i + 1)), slice_from p (Z.to_nat (i + 1))).

(** The [lazybuf] of [path.Clean] only avoids copying: what can be
    observed of it is the sequence of bytes written so far, [buf[0..w)],
    kept here as the string [out] with [w = len out].

    [backtrack] is the inner loop of the [..] case, entered after the
    first [out.w--]:
    [for out.w > dotdot && out.index(out.w) != '/' { out.w-- }].
    The buffer is not written while [w] moves down. *)
Fixpoint backtrack (out : string) (dotdot : nat) (w : nat) : nat :=
  match w with
  | O => O
  | S w' =>
      if (dotdot <? w)%nat && negb (Ascii.eqb (byte_at out w) slash)
      then backtrack out dotdot w'
      else w
  end.

(** [for ; r < n && path[r] != '/'; r++ { out.append(path[r]) }]:
    the bytes copied, and the input left. *)
Fixpoint elem_of (rest : string) : string :=
  match rest with
  | EmptyString => EmptyString
  | String c rest' =>
      if Ascii.eqb c slash then EmptyString else String c (elem_of rest')
  end.

Fixpoint after_elem (rest : string) : string :=
  match rest with
  | EmptyString => EmptyString
  | String c rest' =>
      if Ascii.eqb c slash then rest else after_elem rest'
  end.

(** [r+1 == n || path[r+1] == '/'], on the input that follows [path[r]]. *)
Definition ends_elem (rest : string) : bool :=
  match rest with
  | EmptyString => true
  | String c _ => Ascii.eqb c slash
  end.

(** [path[r+1:]] from [path[r:]]. *)
Definition tail (rest : string) : string :=
  match rest with
  | EmptyString => EmptyString
  | String _ rest' => rest'
  end.

(** [path[r] == c], false at the end of the input. *)
Definition starts_with (c : ascii) (rest : string) : bool :=
  match rest with
  | EmptyString => false
  | String a _ => Ascii.eqb a c
  end.

(** The main loop of [Clean], [for r < n { switch ... }], with
    [String c rest'] for [path[r:]].  In the last case [path[r]] is not
    a slash, so the copying loop takes [c] and then [elem_of rest']. *)
Equations? clean_loop (rooted : bool) (rest : string) (out : string)
  (dotdot : nat) : string by wf (String.length rest) lt :=
  clean_loop rooted EmptyString out dotdot := out;
  clean_loop rooted (String c rest') out dotdot :=
    if Ascii.eqb c slash then
      (* empty path element *)
      clean_loop rooted rest' out dotdot
    else if Ascii.eqb c dot && ends_elem rest' then
      (* . element *)
      clean_loop rooted rest' out dotdot
    else if Ascii.eqb c dot && starts_with dot rest'
            && ends_elem (tail rest') then
      (* .. element: remove to last / *)
      if (dotdot <? len out)%nat then
        (* can backtrack *)
        let w := backtrack out dotdot (len out - 1) in
        clean_loop rooted (tail rest') (slice_to out w) dotdot
      else if negb rooted then
        (* cannot backtrack, but not rooted, so append .. element *)
        let out1 := if (0 <? len out)%nat then out ++ "/" else out in
        let out2 := out1 ++ ".." in
        clean_loop rooted (tail rest') out2 (len out2)
      else clean_loop rooted (tail rest') out dotdot
    else
      (* real path element; add slash if needed, copy element *)
      let out1 :=
        if (rooted && negb (len out =? 1)%nat)
           || (negb rooted && negb (len out =? 0)%nat)
        then out ++ "/" else out in
      clean_loop rooted (after_elem rest')
        (out1 ++ String c (elem_of rest')) dotdot.
Proof.
  all: simpl; try lia.
  all: try (destruct rest'; simpl; lia).
  assert (Hle : forall r, (String.length (after_elem r) <= String.length r)%nat).
  { induction r as [|a r IH]; simpl; [lia|].
    destruct (Ascii.eqb a slash); simpl; lia. }
  specialize (Hle rest'). lia.
Qed.

(** [func Clean(path string) string]. *)
Definition Clean (p : string) : string :=
  match p with
  | EmptyString => "."
  | String c0 p' =>
      let rooted := Ascii.eqb c0 slash in
      let out :=
        if rooted then clean_loop rooted p' "/" 1
        else clean_loop rooted p "" 0 in
      (* Turn empty string into "." *)
      if (len out =? 0)%nat then "." else out
  end.

(** The first loop of [Base],
    [for len(path) > 0 && path[len(path)-1] == '/' { path = path[0 : len(path)-1] }]. *)
Equations? strip_slashes (p : string) : string by wf (len p) lt :=
  strip_slashes EmptyString := EmptyString;
  strip_slashes (String c d) :=
    if Ascii.eqb (byte_at (String c d) (len (String c d) - 1)) slash
    then strip_slashes (chop (String c d))
    else String c d.
Proof.
  unfold chop, slice_to, len.
  change (String.length (String c d) - 1)%nat with (String.length d - 0)%nat.
  rewrite Nat.sub_0_r. clear strip_slashes. revert c.
  induction d as [|b d IH]; intros c; simpl; [lia|].
  specialize (IH b). simpl in IH. lia.
Qed.

(** [func Base(path string) string]: the last element of [path]. *)
Definition Base (p : string) : string :=
  match p with
  | EmptyString => "."
  | _ =>
      (* Strip trailing slashes. *)
      let p := strip_slashes p in
      (* Find the last element *)
      let i := LastIndexByte p slash in
      let p := if (0 <=? i)%Z then slice_from p (Z.to_nat (i + 1)) else p in
      (* If empty now, it had only slashes. *)
      match p with
      | EmptyString => "/"
      | _ => p
      end
  end.

End path.

(** ** Machine integers *)

(** A value of Go's [int64], with the wrap-around of its arithmetic. *)
Definition int64 (z : Z) : Z := ((z + 2 ^ 63) mod 2 ^ 64 - 2 ^ 63)%Z.

(** [os.FileMode] is a [uint32]; [os.ModeDir] is its top bit. *)
Module os.
Definition ModeDir : Z := Z.shiftl 1 31.
(** [func (m FileMode) IsDir() bool { return m&ModeDir != 0 }]. *)
Definition IsDir (m : Z) : bool := negb (Z.land m ModeDir =? 0)%Z.
End os.

(** ** Package [filetree] *)

Section Filetree.

(** The payload of an entry is an [interface{}]: any type [V], with
    [None] for the nil interface. *)
Context {V : Type}.

#[local] Set Warnings "-register-all".
Inductive Entry : Type := mkEntry {
  FullName : string;       (* The absolute path of this item *)
  Children : list Entry;   (* Contains all entries in this directory *)
  Value : option V         (* For directories, this is nil *)
}.

(** [Entry{}], what a Go map returns for a key it does not hold. *)
Definition zeroEntry : Entry := mkEntry "" [] None.

#[export] Instance Entry_inhabited : Inhabited Entry := populate zeroEntry.

Record Tree : Type := mkTree { index : gmap string Entry }.

(** [func (e *Entry) Name() string { return path.Base(e.FullName) }]. *)
Definition Name (e : Entry) : string := path.Base (FullName e).

Definition sizeOfEntry : Z := 512.

(** The octal literals [0555] and [0444]. *)
Definition perm_0555 : Z := 5 * 64 + 5 * 8 + 5.
Definition perm_0444 : Z := 4 * 64 + 4 * 8 + 4.

(** [return sizeOfEntry * int64(len(e.Children))]. *)
Definition Size (e : Entry) : Z :=
  int64 (sizeOfEntry * int64 (Z.of_nat (List.length (Children e)))).

Definition Mode (e : Entry) : Z :=
  if (0 <? List.length (Children e))%nat
  then Z.lor os.ModeDir perm_0555
  else perm_0444.

Definition IsDir (e : Entry) : bool := os.IsDir (Mode e).

(** [New] creates a new Tree with zero children. *)
Definition New : Tree := mkTree ∅.

Definition normalize (filename : string) : string :=
  path.Clean ("/" ++ filename).

(** The loop of [Put],
    [for dir, _ := path.Split(name); len(dir) > 0; dir, _ = path.Split(dir)].
    [dir] is the loop variable as the condition sees it; the body first
    cuts its last byte. *)
Equations? put_loop (idx : gmap string Entry) (lastPath dir : string) :
  gmap string Entry by wf (len dir) lt :=
  put_loop idx lastPath EmptyString := idx;
  put_loop idx lastPath (String c d) :=
    let dir := chop (String c d) in
    let child := idx !!! lastPath in
    let parent := idx !!! dir in
    let parent :=
      mkEntry dir (Children parent ++ [child]) (Value parent) in
    put_loop (<[dir := parent]> idx) dir (fst (path.Split dir)).
Proof.
  assert (Hsub : forall k s, (len (slice_to s k) <= len s)%nat).
  { unfold len, slice_to.
    induction k as [|k IH]; destruct s as [|a s]; simpl; try lia.
    specialize (IH s). lia. }
  assert (Hchop : forall s a, len (chop (String a s)) = len s).
  { unfold chop, slice_to, len. intros s a.
    change (String.length (String a s) - 1)%nat
      with (String.length s - 0)%nat.
    rewrite Nat.sub_0_r. revert a.
    induction s as [|b s IH]; intros a; simpl; [reflexivity|].
    f_equal. apply (IH b). }
  match goal with
  | |- (len (slice_to ?s ?k) < _)%nat => specialize (Hsub k s)
  end.
  specialize (Hchop d c). subst dir. lia.
Qed.

(** [Put] adds a new entry in the file hierarchy. *)
Definition Put (tree : Tree) (name : string) (value : option V) : Tree :=
  let name := normalize name in
  let idx := <[name := mkEntry name [] value]> (index tree) in
  mkTree (put_loop idx name (fst (path.Split name))).

(** [Get] retrieves the item present at the path given by [name]. *)
Definition Get (tree : Tree) (name : string) : Entry * bool :=
  match index tree !! normalize name with
  | Some entry => (entry, true)
  | None => (zeroEntry, false)
  end.

(** The loop of [LongestPrefix],
    [for dir := normalize(name); dir != ""; dir, _ = path.Split(dir)]. *)
Equations? longest_loop (idx : gmap string Entry) (dir : string) :
  Entry * bool by wf (len dir) lt :=
  longest_loop idx EmptyString := (zeroEntry, false);
  longest_loop idx (String c d) :=
    let dir := chop (String c d) in
    match idx !! dir with
    | Some entry => (entry, true)
    | None => longest_loop idx (fst (path.Split dir))
    end.
Proof.
  assert (Hsub : forall k s, (len (slice_to s k) <= len s)%nat).
  { unfold len, slice_to.
    induction k as [|k IH]; destruct s as [|a s]; simpl; try lia.
    specialize (IH s). lia. }
  assert (Hchop : forall s a, len (chop (String a s)) = len s).
  { unfold chop, slice_to, len. intros s a.
    change (String.length (String a s) - 1)%nat
      with (String.length s - 0)%nat.
    rewrite Nat.sub_0_r. revert a.
    induction s as [|b s IH]; intros a; simpl; [reflexivity|].
    f_equal. apply (IH b). }
  match goal with
  | |- (len (slice_to ?s ?k) < _)%nat => specialize (Hsub k s)
  end.
  specialize (Hchop d c). subst dir. lia.
Qed.

(** [LongestPrefix] retrieves the item in the tree whose path is the
    longest prefix of [name]. *)
Definition LongestPrefix (tree : Tree) (name : string) : Entry * bool :=
  longest_loop (index tree) (normalize name).

End Filetree.

Arguments Entry : clear implicits.
Arguments Tree : clear implicits.

(** ** Paths in clean form *)

(** [s] holds a slash. *)
Fixpoint has_slash (s : string) : bool :=
  match s with
  | EmptyString => false
  | String c s' => Ascii.eqb c slash || has_slash s'
  end.

(** A path element of a cleaned path: not empty, no slash, neither [.]
    nor [..]. *)
Definition good_seg (s : string) : Prop :=
  s <> "" /\ has_slash s = false /\ s <> "." /\ s <> "..".

(** [/s1/s2/.../sn], the empty string for no element. *)
Fixpoint body (segs : list string) : string :=
  match segs with
  | [] => ""
  | s :: segs' => "/" ++ s ++ body segs'
  end.

(** The rooted path of the elements [segs]; the root is [/]. *)
Definition render (segs : list string) : string :=
  match segs with
  | [] => "/"
  | _ => body segs
  end.

(** A normalized absolute path: it starts with a slash, has no trailing
    slash except for the root, no empty element, no [.] and no [..]. *)
Definition IsClean (p : string) : Prop :=
  exists segs, Forall good_seg segs /\ p = render segs.

(** [k] is a key of a directory above [name]: [name] continues after [k]
    with a slash.  For [/a/b/c] these are [/a/b], [/a] and the empty
    string. *)
Definition ancestor_key (k name : string) : Prop :=
  exists rest, name = k ++ "/" ++ rest.

(** [a] is a prefix of [s]. *)
Definition str_prefix (a s : string) : Prop := exists b, s = a ++ b.

(** ** Notions used to state the properties *)

Section Notions.

Context {V : Type}.
Implicit Types (idx : gmap string (Entry V)) (k dir lastPath : string).

(** What one turn of the loop of [Put] stores under [dir]. *)
Definition put_step idx lastPath dir : Entry V :=
  mkEntry dir (Children (idx !!! dir) ++ [idx !!! lastPath])%list
    (Value (idx !!! dir)).

(** Every entry of the index carries its key as its name. *)
Definition keys_named idx : Prop :=
  forall k e, idx !! k = Some e -> FullName e = k.

(** The values the loop variable of [Put] takes: empty, or ending with
    a slash. *)
Definition dir_like dir : Prop := dir = "" \/ exists a, dir = a ++ "/".

(** The tree after a sequence of calls [Put(name, value)] on [New()]. *)
Definition run (ops : list (string * option V)) : Tree V :=
  fold_left (fun t op => Put t (fst op) (snd op)) ops New.

(** The value of the last call of [ops] whose name normalizes to [k];
    nil when there is none. *)
Definition last_value (ops : list (string * option V)) (k : string) :
  option V :=
  fold_left
    (fun acc op => if String.eqb (normalize (fst op)) k then snd op else acc)
    ops None.

End Notions.

(** ** Facts on byte strings *)

Section StringFacts.

Lemma sapp_assoc (a b c : string) : (a ++ b) ++ c = a ++ (b ++ c).
Proof. induction a as [|x a IH]; simpl; [reflexivity|]. now rewrite IH. Qed.

Lemma sapp_nil_r (a : string) : a ++ "" = a.
Proof. induction a as [|x a IH]; simpl; [reflexivity|]. now rewrite IH. Qed.

Lemma len_app (a b : string) : len (a ++ b) = (len a + len b)%nat.
Proof.
  unfold len. induction a as [|x a IH]; simpl; [reflexivity|].
  now rewrite IH.
Qed.

Lemma len_0 (a : string) : len a = 0%nat -> a = "".
Proof. destruct a; [reflexivity|discriminate]. Qed.

Lemma sapp_inv_head (a b c : string) : a ++ b = a ++ c -> b = c.
Proof.
  induction a as [|x a IH]; simpl; [trivial|].
  intros H. injection H as H. auto.
Qed.

Lemma sapp_eq_nil (a b : string) : a ++ b = "" -> a = "" /\ b = "".
Proof. destruct a; simpl; [auto|discriminate]. Qed.

Lemma slice_to_app (a b : string) : slice_to (a ++ b) (len a) = a.
Proof.
  unfold slice_to, len. induction a as [|x a IH]; simpl.
  - destruct b; reflexivity.
  - now rewrite IH.
Qed.

Lemma slice_to_all (a : string) : slice_to a (len a) = a.
Proof. rewrite <- (sapp_nil_r a) at 1. apply slice_to_app. Qed.

Lemma slice_from_app (a b : string) : slice_from (a ++ b) (len a) = b.
Proof.
  unfold slice_from, len. induction a as [|x a IH]; simpl.
  - rewrite Nat.sub_0_r. induction b as [|y b IHb]; simpl; [reflexivity|].
    now rewrite IHb.
  - exact IH.
Qed.

Lemma len_slice_to (a : string) (k : nat) : (len (slice_to a k) <= len a)%nat.
Proof.
  unfold len, slice_to. revert a.
  induction k as [|k IH]; destruct a as [|x a]; simpl; try lia.
  specialize (IH a). lia.
Qed.

Lemma chop_snoc (a : string) (c : ascii) : chop (a ++ String c "") = a.
Proof.
  unfold chop. rewrite len_app. change (len (String c "")) with 1%nat.
  replace (len a + 1 - 1)%nat with (len a) by lia.
  apply slice_to_app.
Qed.

(** Every non-empty string ends with some byte. *)
Lemma snoc_inv (s : string) :
  s <> "" -> exists a c, s = a ++ String c "".
Proof.
  induction s as [|x s IH]; [congruence|]. intros _.
  destruct s as [|y s].
  - exists "", x. reflexivity.
  - destruct IH as (a & c & E); [discriminate|].
    exists (String x a), c. simpl. now rewrite <- E.
Qed.

Lemma len_chop (s : string) : s <> "" -> (len (chop s) < len s)%nat.
Proof.
  intros H. destruct (snoc_inv s H) as (a & c & ->).
  rewrite chop_snoc, len_app. change (len (String c "")) with 1%nat. lia.
Qed.

Lemma byte_at_app_r (a b : string) (i : nat) :
  byte_at (a ++ b) (len a + i) = byte_at b i.
Proof.
  unfold byte_at, len. induction a as [|x a IH]; simpl; [reflexivity|].
  exact IH.
Qed.

Lemma has_slash_app (a b : string) :
  has_slash (a ++ b) = has_slash a || has_slash b.
Proof.
  induction a as [|x a IH]; simpl; [reflexivity|].
  rewrite IH. now rewrite orb_assoc.
Qed.

Lemma byte_at_no_slash (s : string) (i : nat) :
  has_slash s = false -> (i < len s)%nat -> byte_at s i <> slash.
Proof.
  unfold byte_at, len. revert i.
  induction s as [|x s IH]; intros i Hs Hi; simpl in *; [lia|].
  apply orb_false_iff in Hs as [Hx Hs].
  destruct i as [|i].
  - now apply Ascii.eqb_neq.
  - apply IH; [assumption|lia].
Qed.

Lemma LastIndexByte_lower (s : string) : (-1 <= LastIndexByte s slash)%Z.
Proof.
  induction s as [|x s IH]; simpl; [lia|].
  destruct (0 <=? LastIndexByte s slash)%Z eqn:E; [lia|].
  destruct (Ascii.eqb x slash); lia.
Qed.

Lemma LastIndexByte_no_slash (s : string) :
  has_slash s = false -> LastIndexByte s slash = (-1)%Z.
Proof.
  induction s as [|x s IH]; simpl; [reflexivity|].
  intros H. apply orb_false_iff in H as [Hx Hs].
  rewrite (IH Hs), Hx. reflexivity.
Qed.

Lemma LastIndexByte_app (a f : string) :
  has_slash f = false ->
  LastIndexByte (a ++ "/" ++ f) slash = Z.of_nat (len a).
Proof.
  intros Hf. induction a as [|x a IH].
  - simpl. rewrite (LastIndexByte_no_slash f Hf). reflexivity.
  - change ((String x a) ++ "/" ++ f) with (String x (a ++ "/" ++ f)).
    cbn [LastIndexByte]. rewrite IH.
    destruct (0 <=? Z.of_nat (len a))%Z eqn:E.
    + unfold len. simpl String.length. lia.
    + apply Z.leb_gt in E. lia.
Qed.

(** A string is free of slashes or splits at its last slash. *)
Lemma last_slash_inv (s : string) :
  has_slash s = false \/
  exists a f, s = a ++ "/" ++ f /\ has_slash f = false.
Proof.
  induction s as [|x s IH]; [now left|].
  destruct IH as [Hs | (a & f & -> & Hf)].
  - destruct (Ascii.eqb x slash) eqn:Ex.
    + right. exists "", s. apply Ascii.eqb_eq in Ex. subst x. now split.
    + left. simpl. now rewrite Ex, Hs.
  - right. exists (String x a), f. now split.
Qed.

Lemma snoc_inj (a b : string) (x y : ascii) :
  a ++ String x "" = b ++ String y "" -> a = b /\ x = y.
Proof.
  revert b. induction a as [|c a IH]; intros [|c' b] H; simpl in H.
  - injection H as ->. auto.
  - injection H as -> H. destruct b; discriminate.
  - injection H as -> H. destruct a; discriminate.
  - injection H as -> H. destruct (IH _ H) as [-> ->]. auto.
Qed.

(** Induction on the length of a string. *)
Lemma len_ind (P : string -> Prop) :
  (forall s, (forall s', (len s' < len s)%nat -> P s') -> P s) ->
  forall s, P s.
Proof.
  intros H s. remember (len s) as n eqn:E. revert s E.
  induction n as [n IH] using lt_wf_ind. intros s ->.
  apply H. intros s' Hlt. exact (IH _ Hlt s' eq_refl).
Qed.

End StringFacts.

(** ** Facts on [path.Split] *)

Section SplitFacts.

Lemma Split_no_slash (f : string) :
  has_slash f = false -> path.Split f = ("", f).
Proof.
  intros H. unfold path.Split. rewrite (LastIndexByte_no_slash f H).
  change (Z.to_nat (-1 + 1)) with (len "").
  change f with ("" ++ f) at 1 2.
  now rewrite slice_to_app, slice_from_app.
Qed.

Lemma Split_last_slash (a f : string) :
  has_slash f = false -> path.Split (a ++ "/" ++ f) = (a ++ "/", f).
Proof.
  intros H. unfold path.Split. rewrite (LastIndexByte_app a f H).
  replace (Z.to_nat (Z.of_nat (len a) + 1)) with (len (a ++ "/")).
  2:{ rewrite len_app. change (len "/") with 1%nat. lia. }
  rewrite <- sapp_assoc.
  now rewrite slice_to_app, slice_from_app.
Qed.

(** The directory part is empty or ends with a slash, and the two parts
    make up the path. *)
Lemma Split_inv (s : string) :
  s = fst (path.Split s) ++ snd (path.Split s) /\
  has_slash (snd (path.Split s)) = false /\
  (fst (path.Split s) = "" \/ exists a, fst (path.Split s) = a ++ "/").
Proof.
  destruct (last_slash_inv s) as [H | (a & f & -> & Hf)].
  - rewrite (Split_no_slash s H). simpl. auto.
  - rewrite (Split_last_slash a f Hf). simpl.
    rewrite sapp_assoc. split; [reflexivity|]. split; [assumption|].
    right. now exists a.
Qed.

Lemma Split_fst_app (a b : string) :
  fst (path.Split (a ++ "/" ++ b)) = a ++ "/" ++ fst (path.Split b).
Proof.
  destruct (last_slash_inv b) as [H | (a' & f & -> & Hf)].
  - rewrite (Split_last_slash a b H), (Split_no_slash b H). reflexivity.
  - rewrite (Split_last_slash a' f Hf). cbn [fst].
    replace (a ++ "/" ++ a' ++ "/" ++ f) with ((a ++ "/" ++ a') ++ "/" ++ f).
    2:{ now rewrite !sapp_assoc. }
    rewrite (Split_last_slash _ f Hf). cbn [fst].
    now rewrite !sapp_assoc.
Qed.

Lemma len_Split_fst (s : string) : (len (fst (path.Split s)) <= len s)%nat.
Proof. unfold path.Split. simpl. apply len_slice_to. Qed.

End SplitFacts.

(** ** Facts on the loop of [Put] *)

Section PutLoopFacts.

Context {V : Type}.
Implicit Types (idx : gmap string (Entry V)) (k dir lastPath : string).

Lemma put_loop_nil idx lastPath : put_loop idx lastPath "" = idx.
Proof. now simp put_loop. Qed.

Lemma put_loop_cons idx lastPath dir :
  dir <> "" ->
  put_loop idx lastPath dir =
  put_loop (<[chop dir := put_step idx lastPath (chop dir)]> idx)
    (chop dir) (fst (path.Split (chop dir))).
Proof. destruct dir; [congruence|]. intros _. now simp put_loop. Qed.

(** The next value of the loop variable is shorter. *)
Lemma len_next_dir dir :
  dir <> "" -> (len (fst (path.Split (chop dir))) < len dir)%nat.
Proof.
  intros H. pose proof (len_chop dir H).
  pose proof (len_Split_fst (chop dir)). lia.
Qed.

(** Induction along the turns of the loop. *)
Lemma dir_ind (P : string -> Prop) :
  P "" ->
  (forall dir, dir <> "" -> P (fst (path.Split (chop dir))) -> P dir) ->
  forall dir, P dir.
Proof.
  intros H0 Hstep dir. induction dir as [dir IH] using len_ind.
  destruct (String.eqb_spec dir "") as [-> | Hne]; [exact H0|].
  apply Hstep; [assumption|]. apply IH. now apply len_next_dir.
Qed.

(** The loop writes only keys shorter than its variable. *)
Lemma put_loop_frame_len dir : forall idx lastPath k,
  (len dir <= len k)%nat ->
  put_loop idx lastPath dir !! k = idx !! k.
Proof.
  induction dir as [|dir Hne IH] using dir_ind; intros idx lastPath k Hk.
  - now rewrite put_loop_nil.
  - rewrite (put_loop_cons _ _ _ Hne).
    pose proof (len_chop dir Hne). pose proof (len_next_dir dir Hne).
    rewrite IH by lia. apply lookup_insert_ne.
    intros E. rewrite E in *. lia.
Qed.

(** The loop never removes a key. *)
Lemma put_loop_is_Some dir : forall idx lastPath k,
  is_Some (idx !! k) -> is_Some (put_loop idx lastPath dir !! k).
Proof.
  induction dir as [|dir Hne IH] using dir_ind; intros idx lastPath k Hk.
  - now rewrite put_loop_nil.
  - rewrite (put_loop_cons _ _ _ Hne). apply IH.
    destruct (decide (chop dir = k)) as [->|Hk'].
    + rewrite lookup_insert_eq. eauto.
    + now rewrite lookup_insert_ne.
Qed.

(** The loop keeps the value stored under every key. *)
Lemma put_loop_Value dir : forall idx lastPath k,
  Value (put_loop idx lastPath dir !!! k) = Value (idx !!! k).
Proof.
  induction dir as [|dir Hne IH] using dir_ind; intros idx lastPath k.
  - now rewrite put_loop_nil.
  - rewrite (put_loop_cons _ _ _ Hne), IH.
    destruct (decide (chop dir = k)) as [->|Hk'].
    + now rewrite lookup_total_insert_eq.
    + now rewrite lookup_total_insert_ne.
Qed.

(** The loop only appends to lists of children. *)
Lemma put_loop_Children dir : forall idx lastPath k,
  exists l,
    Children (put_loop idx lastPath dir !!! k)
    = (Children (idx !!! k) ++ l)%list.
Proof.
  induction dir as [|dir Hne IH] using dir_ind; intros idx lastPath k.
  - rewrite put_loop_nil. exists []. now rewrite app_nil_r.
  - rewrite (put_loop_cons _ _ _ Hne).
    destruct (IH (<[chop dir := put_step idx lastPath (chop dir)]> idx)
                (chop dir) k) as [l Hl].
    rewrite Hl. destruct (decide (chop dir = k)) as [->|Hk'].
    + rewrite lookup_total_insert_eq. simpl.
      eexists. now rewrite <- app_assoc.
    + rewrite lookup_total_insert_ne by assumption. now exists l.
Qed.

Lemma put_loop_keys_named dir : forall idx lastPath,
  keys_named idx -> keys_named (put_loop idx lastPath dir).
Proof.
  induction dir as [|dir Hne IH] using dir_ind; intros idx lastPath Hidx.
  - now rewrite put_loop_nil.
  - rewrite (put_loop_cons _ _ _ Hne). apply IH.
    intros k e. destruct (decide (chop dir = k)) as [->|Hk'].
    + rewrite lookup_insert_eq. now intros [= <-].
    + rewrite lookup_insert_ne by assumption. apply Hidx.
Qed.

Lemma dir_like_Split s : dir_like (fst (path.Split s)).
Proof. destruct (Split_inv s) as (_ & _ & H). exact H. Qed.

Lemma dir_like_chop dir :
  dir_like dir -> dir <> "" -> dir = chop dir ++ "/".
Proof.
  intros [-> | [a ->]] Hne; [congruence|]. now rewrite chop_snoc.
Qed.

(** The loop writes only keys of directories above its variable. *)
Lemma put_loop_frame dir : forall idx lastPath k,
  dir_like dir -> ~ ancestor_key k dir ->
  put_loop idx lastPath dir !! k = idx !! k.
Proof.
  induction dir as [|dir Hne IH] using dir_ind;
    intros idx lastPath k Hdir Hk.
  - now rewrite put_loop_nil.
  - rewrite (put_loop_cons _ _ _ Hne).
    pose proof (dir_like_chop dir Hdir Hne) as Edir.
    rewrite IH.
    + apply lookup_insert_ne. intros <-. apply Hk.
      exists "". now rewrite Edir at 1.
    + apply dir_like_Split.
    + intros [rest Hrest]. apply Hk.
      destruct (Split_inv (chop dir)) as (Hsplit & _ & _).
      exists (rest ++ snd (path.Split (chop dir)) ++ "/").
      rewrite Edir at 1. rewrite Hsplit at 1. rewrite Hrest.
      now rewrite !sapp_assoc.
Qed.

(** The loop stores an entry under the key of every directory above its
    variable, named after the key, with the value the key had. *)
Lemma put_loop_present dir : forall idx lastPath k,
  dir_like dir -> ancestor_key k dir ->
  exists e, put_loop idx lastPath dir !! k = Some e /\ FullName e = k.
Proof.
  induction dir as [|dir Hne IH] using dir_ind;
    intros idx lastPath k Hdir [rest Hk].
  - destruct k; discriminate.
  - rewrite (put_loop_cons _ _ _ Hne).
    pose proof (dir_like_chop dir Hdir Hne) as Edir.
    destruct (String.eqb_spec rest "") as [-> | Hrest].
    + assert (chop dir = k) as Ek.
      { rewrite Hk. apply chop_snoc. }
      rewrite put_loop_frame_len.
      2:{ rewrite <- Ek. apply len_Split_fst. }
      rewrite Ek, lookup_insert_eq. eexists. split; reflexivity.
    + destruct (snoc_inv rest Hrest) as (rest' & x & ->).
      assert (chop dir = k ++ "/" ++ rest') as Ek.
      { rewrite Hk. rewrite <- !sapp_assoc. apply chop_snoc. }
      apply IH; [apply dir_like_Split|].
      rewrite Ek, Split_fst_app. now eexists.
Qed.

End PutLoopFacts.

(** ** Facts on [path.Clean] *)

Section CleanFacts.

Lemma clean_loop_nil rooted out dotdot :
  path.clean_loop rooted "" out dotdot = out.
Proof. now simp clean_loop. Qed.

Lemma body_app (a b : list string) : body (a ++ b) = body a ++ body b.
Proof.
  induction a as [|s a IH]; [reflexivity|].
  cbn [body app]. fold (List.app a b). rewrite IH.
  now rewrite !sapp_assoc.
Qed.

Lemma body_snoc (a : list string) (s : string) :
  body (a ++ [s]) = body a ++ "/" ++ s.
Proof. rewrite body_app. cbn [body]. now rewrite sapp_nil_r. Qed.

Lemma render_snoc (a : list string) (s : string) :
  render (a ++ [s]) = body a ++ "/" ++ s.
Proof. rewrite <- body_snoc. destruct a; reflexivity. Qed.

Lemma len_body_cons (s : string) (segs : list string) :
  (1 <= len (body (s :: segs)))%nat.
Proof. cbn [body]. rewrite len_app. change (len "/") with 1%nat. lia. Qed.

Lemma len_render_good (s : string) (segs : list string) :
  s <> "" -> (2 <= len (render (s :: segs)))%nat.
Proof.
  intros H. cbn [render body]. rewrite !len_app.
  change (len "/") with 1%nat.
  destruct s; [congruence|]. unfold len at 1. simpl. lia.
Qed.

Lemma render_not_empty (segs : list string) : render segs <> "".
Proof. destruct segs; discriminate. Qed.

Lemma render_rooted (segs : list string) :
  exists x, render segs = "/" ++ x.
Proof. destruct segs; cbn [render body]; eauto. Qed.

Lemma ends_elem_body (segs : list string) :
  path.ends_elem (body segs) = true.
Proof. destruct segs; reflexivity. Qed.

Lemma has_slash_elem_of (r : string) : has_slash (path.elem_of r) = false.
Proof.
  induction r as [|c r IH]; [reflexivity|]. cbn [path.elem_of].
  destruct (Ascii.eqb c slash) eqn:E; [reflexivity|].
  cbn [has_slash]. now rewrite E, IH.
Qed.

Lemma elem_of_nil_inv (r : string) :
  path.elem_of r = "" -> path.ends_elem r = true.
Proof.
  destruct r as [|c r]; [reflexivity|]. cbn [path.elem_of path.ends_elem].
  destruct (Ascii.eqb c slash); [reflexivity|discriminate].
Qed.

Lemma len_path_after (r : string) :
  (len (path.after_elem r) <= len r)%nat.
Proof.
  unfold len. induction r as [|c r IH]; [reflexivity|].
  cbn [path.after_elem]. destruct (Ascii.eqb c slash); simpl; lia.
Qed.

Lemma elem_of_app (s b : string) :
  has_slash s = false -> path.ends_elem b = true ->
  path.elem_of (s ++ b) = s /\ path.after_elem (s ++ b) = b.
Proof.
  intros Hs Hb. induction s as [|c s IH].
  - cbn [String.append]. destruct b as [|c b]; [auto|].
    cbn [path.ends_elem] in Hb. cbn [path.elem_of path.after_elem].
    rewrite Hb. auto.
  - cbn [has_slash] in Hs. apply orb_false_iff in Hs as [Hc Hs].
    cbn [String.append path.elem_of path.after_elem]. rewrite Hc.
    destruct (IH Hs) as [-> ->]. auto.
Qed.

(** The [..] case on a buffer that holds a rendered path: the last
    element goes, and the slash before it unless it is the first. *)
Lemma backtrack_render (segs : list string) (s : string) :
  good_seg s ->
  let out := render (segs ++ [s]) in
  slice_to out (path.backtrack out 1 (len out - 1)) = render segs.
Proof.
  intros (Hne & Hs & _ & _) out. subst out. rewrite render_snoc.
  set (out := body segs ++ "/" ++ s). set (L := len (body segs)).
  assert (BT : forall n, (n <= len s)%nat -> (1 <= L \/ 1 <= n)%nat ->
               path.backtrack out 1 (L + n) = Nat.max 1 L).
  { induction n as [|n IH]; intros Hn HL.
    - destruct HL as [HL|HL]; [|lia]. rewrite Nat.add_0_r.
      destruct L as [|L'] eqn:EL; [lia|]. cbn [path.backtrack].
      replace (byte_at out (S L')) with slash.
      2:{ subst out. rewrite <- EL, <- (Nat.add_0_r L). subst L.
          now rewrite byte_at_app_r. }
      rewrite Ascii.eqb_refl, andb_false_r. lia.
    - replace (L + S n)%nat with (S (L + n)) by lia. cbn [path.backtrack].
      destruct (L + n)%nat as [|m] eqn:Em.
      + simpl. lia.
      + replace (1 <? S (S m))%nat with true
          by (symmetry; apply Nat.ltb_lt; lia).
        assert (byte_at out (S (S m)) <> slash) as Hb.
        { rewrite <- Em. replace (S (L + n)) with (L + S n)%nat by lia.
          subst out L. rewrite byte_at_app_r.
          change (byte_at ("/" ++ s) (S n)) with (byte_at s n).
          apply byte_at_no_slash; [assumption|lia]. }
        apply Ascii.eqb_neq in Hb. rewrite Hb. cbn [negb andb].
        apply IH; lia. }
  assert (1 <= len s)%nat as Hlen.
  { destruct s; [congruence|]. unfold len. simpl. lia. }
  replace (len out - 1)%nat with (L + len s)%nat.
  2:{ subst out L. rewrite !len_app. change (len "/") with 1%nat. lia. }
  rewrite BT by lia. destruct segs as [|s0 segs0].
  - subst out L. cbn [body render]. change (Nat.max 1 (len "")) with (len "/").
    cbn [String.append]. change (String "/" s) with ("/" ++ s).
    apply slice_to_app.
  - pose proof (len_body_cons s0 segs0).
    replace (Nat.max 1 L) with L by lia. subst out L.
    change (render (s0 :: segs0)) with (body (s0 :: segs0)).
    apply slice_to_app.
Qed.

Lemma elem_of_cons_inv (r y : string) (x : ascii) :
  path.elem_of r = String x y ->
  exists r', r = String x r' /\ path.elem_of r' = y.
Proof.
  destruct r as [|c r]; [discriminate|]. cbn [path.elem_of].
  destruct (Ascii.eqb c slash); [discriminate|].
  intros [= -> <-]. eauto.
Qed.

(** What the copying case appends is a proper path element. *)
Lemma good_seg_elem (c : ascii) (rest' : string) :
  Ascii.eqb c slash = false ->
  Ascii.eqb c dot && path.ends_elem rest' = false ->
  Ascii.eqb c dot && path.starts_with dot rest'
    && path.ends_elem (path.tail rest') = false ->
  good_seg (String c (path.elem_of rest')).
Proof.
  intros Ec Edot Edd. repeat split.
  - discriminate.
  - cbn [has_slash]. now rewrite Ec, has_slash_elem_of.
  - intros [= -> He]. apply elem_of_nil_inv in He.
    rewrite He in Edot. discriminate.
  - intros [= -> He]. apply elem_of_cons_inv in He as (r' & -> & He).
    apply elem_of_nil_inv in He. cbn in Edd. rewrite He in Edd.
    discriminate.
Qed.

(** The slash the copying case adds first, on a rendered buffer. *)
Lemma add_slash_render (segs : list string) :
  Forall good_seg segs ->
  (if true && negb (len (render segs) =? 1)%nat
      || negb true && negb (len (render segs) =? 0)%nat
   then render segs ++ "/" else render segs) = body segs ++ "/".
Proof.
  intros H. destruct H as [|s segs (Hs & _) _]; [reflexivity|].
  pose proof (len_render_good s segs Hs).
  replace (len (render (s :: segs)) =? 1)%nat with false
    by (symmetry; apply Nat.eqb_neq; lia).
  reflexivity.
Qed.

(** The loop of [Clean], started on a rendered buffer, ends on one. *)
Lemma clean_loop_clean (rest : string) : forall segs,
  Forall good_seg segs ->
  IsClean (path.clean_loop true rest (render segs) 1).
Proof.
  induction rest as [rest IH] using len_ind. intros segs Hsegs.
  destruct rest as [|c rest'].
  - rewrite clean_loop_nil. now exists segs.
  - assert (len rest' < len (String c rest'))%nat as Hlt
      by (unfold len; simpl; lia).
    assert (len (path.tail rest') < len (String c rest'))%nat as Hlt2.
    { destruct rest'; unfold len; simpl; lia. }
    rewrite path.clean_loop_equation_2.
    destruct (Ascii.eqb c slash) eqn:Ec; [now apply IH|].
    destruct (Ascii.eqb c dot && path.ends_elem rest') eqn:Edot;
      [now apply IH|].
    destruct (Ascii.eqb c dot && path.starts_with dot rest'
              && path.ends_elem (path.tail rest')) eqn:Edd.
    + destruct (1 <? len (render segs))%nat eqn:Elen.
      * destruct segs as [|s0 segs0]; [discriminate|].
        assert (s0 :: segs0 <> []) as Hne by discriminate.
        destruct (exists_last Hne) as (segs' & s & E).
        rewrite E in *. apply Forall_app in Hsegs as [Hsegs' Hs].
        apply Forall_cons_iff in Hs as [Hs _].
        cbv zeta. rewrite (backtrack_render segs' s Hs). now apply IH.
      * cbn [negb]. now apply IH.
    + cbv zeta. rewrite (add_slash_render segs Hsegs).
      rewrite sapp_assoc.
      change ("/" ++ String c (path.elem_of rest'))
        with ("/" ++ (String c (path.elem_of rest'))).
      rewrite <- render_snoc. apply IH.
      * pose proof (len_path_after rest'). lia.
      * apply Forall_app. split; [assumption|].
        constructor; [now apply good_seg_elem | constructor].
Qed.

(** A proper path element followed by a rendered tail is read by the
    loop as an element: neither of the dot cases applies. *)
Lemma good_seg_not_dots (c : ascii) (s' b : string) :
  good_seg (String c s') ->
  Ascii.eqb c slash = false /\
  Ascii.eqb c dot && path.ends_elem (s' ++ b) = false /\
  Ascii.eqb c dot && path.starts_with dot (s' ++ b)
    && path.ends_elem (path.tail (s' ++ b)) = false.
Proof.
  intros (_ & Hs & Hdot & Hdd). cbn [has_slash] in Hs.
  apply orb_false_iff in Hs as [Hc Hs']. split; [assumption|].
  destruct (Ascii.eqb_spec c dot) as [-> | Hc']; [|auto].
  destruct s' as [|c' s'']; [now contradiction Hdot|].
  cbn [has_slash] in Hs'. apply orb_false_iff in Hs' as [Hc1 Hs''].
  cbn [String.append path.ends_elem path.starts_with path.tail andb].
  split; [assumption|].
  destruct (Ascii.eqb_spec c' dot) as [-> | Hc'']; [|reflexivity].
  destruct s'' as [|c'' s3]; [now contradiction Hdd|].
  cbn [has_slash] in Hs''. apply orb_false_iff in Hs'' as [Hc2 _].
  cbn [String.append path.ends_elem andb]. assumption.
Qed.

(** On a rendered path the loop of [Clean] copies every element. *)
Lemma clean_loop_body (segs2 : list string) : forall segs1,
  Forall good_seg segs1 -> Forall good_seg segs2 ->
  path.clean_loop true (body segs2) (render segs1) 1
  = render (segs1 ++ segs2).
Proof.
  induction segs2 as [|s segs2 IH]; intros segs1 H1 H2.
  - cbn [body]. rewrite clean_loop_nil. now rewrite app_nil_r.
  - apply Forall_cons_iff in H2 as [Hs H2].
    cbn [body]. cbn [String.append].
    rewrite path.clean_loop_equation_2.
    change (Ascii.eqb "/" slash) with true. cbv iota.
    destruct s as [|c s']; [now destruct Hs|].
    cbn [String.append]. rewrite path.clean_loop_equation_2.
    destruct (good_seg_not_dots c s' (body segs2) Hs) as (-> & -> & ->).
    cbv zeta iota. rewrite (add_slash_render segs1 H1).
    destruct (elem_of_app s' (body segs2)) as [-> ->].
    { destruct Hs as (_ & Hs & _). cbn [has_slash] in Hs.
      now apply orb_false_iff in Hs as [_ Hs]. }
    { apply ends_elem_body. }
    rewrite sapp_assoc. rewrite <- render_snoc.
    rewrite IH; [|apply Forall_app; split; [assumption|]|assumption].
    + now rewrite <- app_assoc.
    + constructor; [assumption|constructor].
Qed.

Lemma normalize_loop (p : string) :
  normalize p = path.clean_loop true p "/" 1.
Proof.
  unfold normalize. cbn [String.append]. unfold path.Clean.
  change (Ascii.eqb "/" slash) with true. cbv iota zeta.
  destruct (clean_loop_clean p [] (List.Forall_nil _)) as (segs & _ & E).
  change (render []) with "/" in E. rewrite E.
  destruct segs as [|s segs]; [reflexivity|].
  pose proof (len_body_cons s segs).
  change (render (s :: segs)) with (body (s :: segs)).
  destruct (len (body (s :: segs))) eqn:El; [lia|reflexivity].
Qed.

Lemma normalize_clean (p : string) : IsClean (normalize p).
Proof.
  rewrite normalize_loop. apply (clean_loop_clean p []). constructor.
Qed.

(** [normalize] leaves a clean path as it is. *)
Lemma normalize_render (segs : list string) :
  Forall good_seg segs -> normalize (render segs) = render segs.
Proof.
  intros H. rewrite normalize_loop. destruct segs as [|s segs].
  - cbn [render]. rewrite path.clean_loop_equation_2.
    change (Ascii.eqb "/" slash) with true. cbv iota.
    apply clean_loop_nil.
  - change (render (s :: segs)) with (body (s :: segs)).
    apply (clean_loop_body (s :: segs) []); [constructor|assumption].
Qed.

Lemma normalize_rooted (p : string) : exists x, normalize p = "/" ++ x.
Proof.
  destruct (normalize_clean p) as (segs & _ & ->). apply render_rooted.
Qed.

Lemma normalize_not_empty (p : string) : normalize p <> "".
Proof. destruct (normalize_rooted p) as [x ->]. discriminate. Qed.

End CleanFacts.

(** ** Keys of directories above a clean path *)

Section AncestorFacts.

(** A slash-free element and a key that ends inside or after it. *)
Lemma seg_align (s b k rest : string) :
  has_slash s = false -> s ++ b = k ++ "/" ++ rest ->
  exists k', k = s ++ k' /\ b = k' ++ "/" ++ rest.
Proof.
  revert k. induction s as [|x s IH]; intros k Hs E.
  - exists k. auto.
  - cbn [has_slash] in Hs. apply orb_false_iff in Hs as [Hx Hs].
    destruct k as [|y k].
    + cbn [String.append] in E. injection E as -> _.
      discriminate.
    + cbn [String.append] in E. injection E as -> E.
      destruct (IH k Hs E) as (k' & -> & ->). now exists k'.
Qed.

(** The keys above a rendered path are the renderings of its proper
    prefixes, the empty string for the root. *)
Lemma ancestor_key_body (segs : list string) : forall k,
  Forall good_seg segs -> ancestor_key k (body segs) ->
  exists segs1 segs2, segs = (segs1 ++ segs2)%list /\ k = body segs1.
Proof.
  induction segs as [|s segs IH]; intros k Hsegs [rest E].
  - destruct k; discriminate.
  - apply Forall_cons_iff in Hsegs as [Hs Hsegs].
    destruct k as [|y k].
    + exists [], (s :: segs). auto.
    + cbn [body String.append] in E. injection E as <- E.
      destruct Hs as (_ & Hs & _).
      destruct (seg_align s (body segs) k rest Hs E) as (k' & -> & E').
      destruct (IH k' Hsegs) as (segs1 & segs2 & -> & ->);
        [now exists rest|].
      exists (s :: segs1), segs2. split; reflexivity.
Qed.

Lemma ancestor_key_render (segs : list string) (k : string) :
  Forall good_seg segs -> ancestor_key k (render segs) ->
  k = "" \/ IsClean k.
Proof.
  intros Hsegs Hk. destruct segs as [|s segs].
  - left. destruct Hk as [rest E]. destruct k as [|y k]; [reflexivity|].
    cbn [render String.append] in E. injection E as _ E.
    destruct k; discriminate.
  - change (render (s :: segs)) with (body (s :: segs)) in Hk.
    destruct (ancestor_key_body _ k Hsegs Hk) as (segs1 & segs2 & E & ->).
    destruct segs1 as [|s1 segs1]; [now left|]. right.
    exists (s1 :: segs1). split; [|reflexivity].
    rewrite E in Hsegs. now apply Forall_app in Hsegs as [H1 _].
Qed.

(** [Get] reads a non-empty ancestor key under that very key. *)
Lemma normalize_ancestor_key (p k : string) :
  ancestor_key k (normalize p) -> k <> "" -> normalize k = k.
Proof.
  intros Hk Hne. destruct (normalize_clean p) as (segs & Hsegs & E).
  rewrite E in Hk.
  destruct (ancestor_key_render segs k Hsegs Hk) as [-> | (s1 & H1 & ->)];
    [congruence|].
  now apply normalize_render.
Qed.

(** The root key is above every normalized name. *)
Lemma ancestor_key_root (p : string) : ancestor_key "" (normalize p).
Proof. destruct (normalize_rooted p) as [x ->]. now exists x. Qed.

(** No normalized name lies under the key [/]: it would start with two
    slashes. *)
Lemma not_ancestor_key_slash (p : string) :
  ~ ancestor_key "/" (normalize p).
Proof.
  destruct (normalize_clean p) as (segs & Hsegs & ->). intros [rest E].
  destruct segs as [|s segs]; [discriminate|].
  apply Forall_cons_iff in Hsegs as [(Hne & Hs & _) _].
  cbn [render body String.append] in E. injection E as E.
  destruct s as [|c s]; [congruence|].
  cbn [String.append] in E. injection E as -> _. discriminate.
Qed.

Lemma ancestor_key_shorter (k name : string) :
  ancestor_key k name -> (len k < len name)%nat.
Proof.
  intros [rest ->]. rewrite !len_app. change (len "/") with 1%nat. lia.
Qed.

Lemma ancestor_key_Split (k name : string) :
  ancestor_key k name <-> ancestor_key k (fst (path.Split name)).
Proof.
  split; intros [rest E].
  - rewrite E, Split_fst_app. now eexists.
  - destruct (Split_inv name) as (Hname & _ & _).
    exists (rest ++ snd (path.Split name)).
    rewrite Hname at 1. rewrite E. now rewrite !sapp_assoc.
Qed.

End AncestorFacts.

(** ** Facts on the loop of [LongestPrefix] *)

Section LongestLoopFacts.

Context {V : Type}.
Implicit Types (idx : gmap string (Entry V)) (k dir : string).

Lemma longest_loop_nil idx : longest_loop idx "" = (zeroEntry, false).
Proof. now simp longest_loop. Qed.

(** The first key a turn tests is its variable without its last byte. *)
Lemma longest_loop_cons idx dir :
  dir <> "" ->
  longest_loop idx dir =
  match idx !! chop dir with
  | Some entry => (entry, true)
  | None => longest_loop idx (fst (path.Split (chop dir)))
  end.
Proof. destruct dir; [congruence|]. intros _. now simp longest_loop. Qed.

(** A hit is stored under a key shorter than the loop variable. *)
Lemma longest_loop_hit dir : forall idx e,
  longest_loop idx dir = (e, true) ->
  exists k, idx !! k = Some e /\ (len k < len dir)%nat.
Proof.
  induction dir as [|dir Hne IH] using dir_ind; intros idx e H.
  - rewrite longest_loop_nil in H. discriminate.
  - rewrite (longest_loop_cons _ _ Hne) in H.
    pose proof (len_chop dir Hne). pose proof (len_next_dir dir Hne).
    destruct (idx !! chop dir) as [e'|] eqn:E.
    + injection H as ->. eauto.
    + destruct (IH _ _ H) as (k & Hk & Hlen). exists k. split; [auto|lia].
Qed.

(** With the empty key in the index, the walk from a rooted path ends
    on a hit: on the entry of the empty key when no other prefix of the
    path is a key. *)
Lemma longest_loop_root dir : forall idx r,
  idx !! "" = Some r ->
  (exists x, dir = "/" ++ x) ->
  snd (longest_loop idx dir) = true /\
  ((forall k, k <> "" -> str_prefix k dir -> k <> dir -> idx !! k = None) ->
   longest_loop idx dir = (r, true)).
Proof.
  induction dir as [|dir Hne IH] using dir_ind; intros idx r Hr [x Hx].
  - discriminate.
  - rewrite (longest_loop_cons _ _ Hne).
    destruct (snoc_inv dir Hne) as (a & c & Ea).
    assert (chop dir = a) as Ec by (rewrite Ea; apply chop_snoc).
    rewrite Ec.
    destruct (String.eqb_spec a "") as [-> | Ha].
    { rewrite Hr. auto. }
    assert (exists y, a = "/" ++ y) as [y Ey].
    { destruct a as [|b a]; [congruence|]. rewrite Hx in Ea.
      cbn [String.append] in Ea. injection Ea as <- _. now exists a. }
    assert (exists z, fst (path.Split a) = "/" ++ z) as Hnext.
    { rewrite Ey. change ("/" ++ y) with ("" ++ "/" ++ y).
      rewrite Split_fst_app. now eexists. }
    assert (str_prefix (fst (path.Split a)) a) as [f Hf].
    { exists (snd (path.Split a)). apply Split_inv. }
    destruct (IH idx r Hr) as [IH1 IH2].
    { now rewrite Ec. }
    rewrite Ec in IH1, IH2.
    destruct (idx !! a) as [e|] eqn:E.
    + split; [reflexivity|]. intros Hnone. rewrite Hnone in E.
      * discriminate.
      * assumption.
      * exists (String c ""). exact Ea.
      * intros ->. apply (f_equal len) in Ea. rewrite len_app in Ea.
        change (len (String c "")) with 1%nat in Ea. lia.
    + split; [assumption|]. intros Hnone. apply IH2.
      intros k Hk [b Hb] Hkne. apply Hnone; [assumption| |].
      * exists (b ++ f ++ String c ""). rewrite Ea, Hf at 1. rewrite Hb.
        now rewrite !sapp_assoc.
      * intros ->. apply (f_equal len) in Ea, Hf, Hb.
        rewrite !len_app in *. change (len (String c "")) with 1%nat in Ea.
        lia.
Qed.

End LongestLoopFacts.

(** ** Trees built by [New] and [Put] *)

Section TreeFacts.

Context {V : Type}.
Implicit Types (t : Tree V) (p k : string) (v : option V).

Lemma lookup_total_Some (idx : gmap string (Entry V)) k e :
  idx !! k = Some e -> idx !!! k = e.
Proof. intros H. now rewrite lookup_total_alt, H. Qed.

Lemma first_dir_not_empty p : fst (path.Split (normalize p)) <> "".
Proof.
  destruct (normalize_rooted p) as [x ->].
  change ("/" ++ x) with ("" ++ "/" ++ x). rewrite Split_fst_app.
  discriminate.
Qed.

Lemma Put_target t p v :
  index (Put t p v) !! normalize p = Some (mkEntry (normalize p) [] v).
Proof.
  unfold Put. cbn [index].
  rewrite put_loop_frame_len by apply len_Split_fst.
  apply lookup_insert_eq.
Qed.

Lemma Put_frame t p v k :
  k <> normalize p -> ~ ancestor_key k (normalize p) ->
  index (Put t p v) !! k = index t !! k.
Proof.
  intros Hk Hanc. unfold Put. cbn [index].
  rewrite put_loop_frame.
  - now apply lookup_insert_ne.
  - apply dir_like_Split.
  - now rewrite <- ancestor_key_Split.
Qed.

Lemma Put_present t p v k :
  ancestor_key k (normalize p) ->
  exists e, index (Put t p v) !! k = Some e /\ FullName e = k.
Proof.
  intros Hk. unfold Put. cbn [index]. apply put_loop_present.
  - apply dir_like_Split.
  - now rewrite <- ancestor_key_Split.
Qed.

Lemma Put_is_Some t p v k :
  is_Some (index t !! k) -> is_Some (index (Put t p v) !! k).
Proof.
  intros Hk. unfold Put. cbn [index]. apply put_loop_is_Some.
  destruct (decide (normalize p = k)) as [->|Hne].
  - rewrite lookup_insert_eq. eauto.
  - now rewrite lookup_insert_ne.
Qed.

Lemma Put_Value t p v k :
  Value (index (Put t p v) !!! k) =
  if String.eqb (normalize p) k then v else Value (index t !!! k).
Proof.
  unfold Put. cbn [index]. rewrite put_loop_Value.
  destruct (String.eqb_spec (normalize p) k) as [->|Hne].
  - now rewrite lookup_total_insert_eq.
  - now rewrite lookup_total_insert_ne.
Qed.

Lemma Put_Children t p v k :
  k <> normalize p ->
  exists l,
    Children (index (Put t p v) !!! k)
    = (Children (index t !!! k) ++ l)%list.
Proof.
  intros Hk. unfold Put. cbn [index].
  destruct (put_loop_Children (fst (path.Split (normalize p)))
              (<[normalize p := mkEntry (normalize p) [] v]> (index t))
              (normalize p) k) as [l Hl].
  exists l. rewrite Hl. now rewrite lookup_total_insert_ne.
Qed.

Lemma Put_keys_named t p v :
  keys_named (index t) -> keys_named (index (Put t p v)).
Proof.
  intros Ht. unfold Put. cbn [index]. apply put_loop_keys_named.
  intros k e. destruct (decide (normalize p = k)) as [<-|Hne].
  - rewrite lookup_insert_eq. now intros [= <-].
  - rewrite lookup_insert_ne by assumption. apply Ht.
Qed.

(** The first turn of the loop of [Put] appends the new entry to the
    children of its parent, and no later turn touches the parent. *)
Lemma Put_parent t p v :
  let n := normalize p in
  let parent := chop (fst (path.Split n)) in
  index (Put t p v) !! parent =
  Some (mkEntry parent
          (Children (index t !!! parent) ++ [mkEntry n [] v])%list
          (Value (index t !!! parent))).
Proof.
  intros n parent. unfold Put. cbn [index]. fold n.
  pose proof (first_dir_not_empty p) as Hne. fold n in Hne.
  rewrite (put_loop_cons _ _ _ Hne). fold parent.
  rewrite put_loop_frame_len by apply len_Split_fst.
  rewrite lookup_insert_eq. unfold put_step.
  assert (parent <> n) as Hpn.
  { intros E. pose proof (len_chop _ Hne) as H1. fold parent in H1.
    pose proof (len_Split_fst n). rewrite E in H1. lia. }
  rewrite lookup_total_insert_eq.
  rewrite lookup_total_insert_ne by congruence.
  reflexivity.
Qed.

Lemma run_snoc (ops : list (string * option V)) p v :
  run (ops ++ [(p, v)]) = Put (run ops) p v.
Proof. unfold run. now rewrite fold_left_app. Qed.

Lemma run_keys_named (ops : list (string * option V)) :
  keys_named (index (run ops)).
Proof.
  induction ops as [|[p v] ops IH] using rev_ind.
  - intros k e H. cbn in H. now rewrite lookup_empty in H.
  - rewrite run_snoc. now apply Put_keys_named.
Qed.

(** Under every key lies the value of the last [Put] at that key. *)
Lemma run_Value (ops : list (string * option V)) k :
  Value (index (run ops) !!! k) = last_value ops k.
Proof.
  induction ops as [|[p v] ops IH] using rev_ind.
  - cbn. now rewrite lookup_total_empty.
  - rewrite run_snoc, Put_Value, IH. unfold last_value.
    now rewrite fold_left_app.
Qed.

Lemma run_present (ops : list (string * option V)) p v k :
  In (p, v) ops -> ancestor_key k (normalize p) ->
  exists e, index (run ops) !! k = Some e /\ FullName e = k
            /\ Value e = last_value ops k.
Proof.
  intros Hin Hk.
  assert (is_Some (index (run ops) !! k)) as [e He].
  { induction ops as [|[q w] ops IH] using rev_ind; [destruct Hin|].
    rewrite run_snoc. apply in_app_or in Hin as [Hin | [[= -> ->] | []]].
    - apply Put_is_Some. auto.
    - destruct (Put_present (run ops) p v k Hk) as (e & He & _). eauto. }
  exists e. split; [assumption|]. split.
  - now apply (run_keys_named ops).
  - rewrite <- run_Value. now rewrite (lookup_total_Some _ _ _ He).
Qed.

End TreeFacts.

(** ** More on runs *)

Section RunFacts.

Context {V : Type}.
Implicit Types (ops : list (string * option V)) (k : string).

Lemma last_value_none ops k :
  (forall q w, In (q, w) ops -> normalize q <> k) ->
  last_value ops k = None.
Proof.
  unfold last_value. generalize (@None V) as acc.
  induction ops as [|[q w] ops IH]; intros acc H; [reflexivity|].
  cbn [fold_left fst snd].
  destruct (String.eqb_spec (normalize q) k) as [E|_].
  - exfalso. apply (H q w); [now left|assumption].
  - apply IH. intros q' w' Hin. apply (H q' w'). now right.
Qed.

(** [Put] never writes the key [/] unless the name normalizes to it. *)
Lemma run_slash_absent ops :
  (forall q w, In (q, w) ops -> normalize q <> "/") ->
  index (run ops) !! "/" = None.
Proof.
  induction ops as [|[p v] ops IH] using rev_ind; intros H.
  - cbn. apply lookup_empty.
  - rewrite run_snoc, Put_frame.
    + apply IH. intros q w Hin. apply (H q w), in_or_app. now left.
    + intros E. apply (H p v); [|now symmetry].
      apply in_or_app. right. now left.
    + apply not_ancestor_key_slash.
Qed.

Lemma Get_Some (t : Tree V) (q : string) (e : Entry V) :
  Get t q = (e, true) -> index t !! normalize q = Some e.
Proof.
  unfold Get. destruct (index t !! normalize q); [|discriminate].
  now intros [= ->].
Qed.

(** Every directory above a name that was put, the root apart, is found
    by [Get], with the value of the last [Put] at the directory itself,
    nil when there was none. *)
Lemma Get_ancestor_found ops (p : string) (v : option V) (d : string) :
  In (p, v) ops -> ancestor_key d (normalize p) -> d <> "" ->
  exists e, Get (run ops) d = (e, true) /\ FullName e = d
            /\ Value e = last_value ops d.
Proof.
  intros Hin Hd Hne.
  destruct (run_present ops p v d Hin Hd) as (e & He & Hname & Hval).
  exists e. unfold Get. rewrite (normalize_ancestor_key p d Hd Hne), He.
  auto.
Qed.

(** Unless a name that normalizes to [/] was put, [Get] does not find
    the root. *)
Lemma Get_root_not_found ops :
  (forall q w, In (q, w) ops -> normalize q <> "/") ->
  Get (run ops) "/" = (zeroEntry, false).
Proof.
  intros H. unfold Get.
  change (normalize "/") with (normalize (render [])).
  rewrite normalize_render by constructor. cbn [render].
  now rewrite (run_slash_absent ops H).
Qed.

(** The first key [LongestPrefix] tests is the normalized name without
    its last byte. *)
Lemma LongestPrefix_first (t : Tree V) (name : string) (e : Entry V) :
  index t !! chop (normalize name) = Some e ->
  LongestPrefix t name = (e, true).
Proof.
  intros H. unfold LongestPrefix.
  rewrite longest_loop_cons by apply normalize_not_empty.
  now rewrite H.
Qed.

Lemma int64_small (z : Z) :
  (- 2 ^ 63 <= z < 2 ^ 63)%Z -> int64 z = z.
Proof. intros H. unfold int64. rewrite Z.mod_small; lia. Qed.

End RunFacts.

(** ** The properties of the package *)

(** C1, at the input where the code departs from it: after
    [Put("/a", 1)] on a new tree the root directory is recorded under the
    empty key with the empty name, and [Get("/")] reports not found,
    although [/] is a directory above [/a]. *)
Theorem Get_root_after_Put :
  let t := Put (V := nat) New "/a" (Some 1%nat) in
  ancestor_key "" (normalize "/a") /\
  index t !! "" = Some (mkEntry "" [mkEntry "/a" [] (Some 1%nat)] None) /\
  index t !! "/" = None /\
  Get t "/" = (zeroEntry, false).
Proof.
  cbv zeta. split; [apply ancestor_key_root|].
  split; [vm_compute; reflexivity|].
  split; vm_compute; reflexivity.
Qed.

(** C2, at the input where the code departs from it: with [/a/b]
    registered, [LongestPrefix("/a/bc")] first tests the name without its
    last byte and returns the entry of [/a/b], which is no directory above
    [/a/bc], while the longest registered one is [/a]. *)
Theorem LongestPrefix_not_an_ancestor :
  let t := Put (V := nat) New "/a/b" (Some 1%nat) in
  LongestPrefix t "/a/bc" = (mkEntry "/a/b" [] (Some 1%nat), true) /\
  ~ ancestor_key "/a/b" (normalize "/a/bc") /\
  ancestor_key "/a" (normalize "/a/bc") /\
  is_Some (index t !! "/a").
Proof.
  cbv zeta. split; [vm_compute; reflexivity|].
  split; [|split].
  - intros [rest H]. vm_compute in H. discriminate.
  - exists "bc". vm_compute. reflexivity.
  - vm_compute. eauto.
Qed.

(** C3: on every tree built by [Put] calls, an entry returned by
    [LongestPrefix(name)] is not named [normalize(name)]. *)
Theorem LongestPrefix_never_exact {V : Type}
  (ops : list (string * option V)) (name : string) (e : Entry V) :
  LongestPrefix (run ops) name = (e, true) ->
  FullName e <> normalize name.
Proof.
  unfold LongestPrefix. intros H.
  destruct (longest_loop_hit _ _ _ H) as (k & Hk & Hlen).
  rewrite (run_keys_named ops k e Hk). intros E. rewrite E in Hlen. lia.
Qed.

Lemma LongestPrefix_never_exact_witness :
  let e := mkEntry "/a/b" [] (Some 1%nat) in
  LongestPrefix (run [("/a/b", Some 1%nat)]) "/a/b/c" = (e, true) /\
  FullName e <> normalize "/a/b/c".
Proof.
  cbv zeta.
  assert (H : LongestPrefix (run [("/a/b", Some 1%nat)]) "/a/b/c"
              = (mkEntry "/a/b" [] (Some 1%nat), true))
    by (vm_compute; reflexivity).
  split; [exact H|].
  exact (LongestPrefix_never_exact [("/a/b", Some 1%nat)] "/a/b/c" _ H).
Defined.

(** C4: right after [Put(p, v)], [Get(p)] finds an entry with value [v],
    and [Get(q)] returns the same for every [q] that normalizes as [p]. *)
Theorem Put_then_Get {V : Type} (t : Tree V) (p : string) (v : option V) :
  Get (Put t p v) p = (mkEntry (normalize p) [] v, true) /\
  forall q, normalize q = normalize p ->
            Get (Put t p v) q = Get (Put t p v) p.
Proof.
  split.
  - unfold Get. now rewrite Put_target.
  - intros q Hq. unfold Get. now rewrite Hq.
Qed.

Lemma Put_then_Get_witness :
  Get (Put (V := nat) New "/a/b" (Some 1%nat)) "a//b/."
  = Get (Put New "/a/b" (Some 1%nat)) "/a/b".
Proof.
  apply (proj2 (Put_then_Get New "/a/b" (Some 1%nat))).
  vm_compute. reflexivity.
Defined.

(** C5: after [Put(p, v1)] and [Put(p, v2)], [Get(p)] returns the entry
    with [v2], and the children of the parent of [p] have grown by two
    entries named [normalize(p)], one per call. *)
Theorem Put_twice_duplicates {V : Type} (t : Tree V) (p : string)
  (v1 v2 : option V) :
  let n := normalize p in
  let parent := chop (fst (path.Split n)) in
  let t2 := Put (Put t p v1) p v2 in
  Get t2 p = (mkEntry n [] v2, true) /\
  Children (index t2 !!! parent)
  = (Children (index t !!! parent) ++ [mkEntry n [] v1; mkEntry n [] v2])%list.
Proof.
  intros n parent t2. subst n parent t2. split.
  - unfold Get. now rewrite Put_target.
  - pose proof (Put_parent (Put t p v1) p v2) as H2. cbv zeta in H2.
    pose proof (Put_parent t p v1) as H1. cbv zeta in H1.
    rewrite (lookup_total_Some _ _ _ H2). cbn [Children].
    rewrite (lookup_total_Some _ _ _ H1). cbn [Children].
    now rewrite <- app_assoc.
Qed.

(** C6: [Put(p, v)] leaves under [normalize(p)] an entry with value [v]
    and no children, whatever was recorded there, and the children that
    any other key had, the ancestors among them, are all still there. *)
Theorem Put_resets_own_children {V : Type} (t : Tree V) (p : string)
  (v : option V) :
  index (Put t p v) !! normalize p = Some (mkEntry (normalize p) [] v) /\
  forall k, k <> normalize p ->
    exists l, Children (index (Put t p v) !!! k)
              = (Children (index t !!! k) ++ l)%list.
Proof.
  split; [apply Put_target|]. intros k Hk. now apply Put_Children.
Qed.

Lemma Put_resets_own_children_witness :
  let t := Put (V := nat) New "/a/b/c" (Some 1%nat) in
  Children (index t !!! "/a/b") = [mkEntry "/a/b/c" [] (Some 1%nat)] /\
  index (Put t "/a/b" (Some 2%nat)) !! "/a/b"
  = Some (mkEntry "/a/b" [] (Some 2%nat)) /\
  exists l, Children (index (Put t "/a/b" (Some 2%nat)) !!! "/a")
            = (Children (index t !!! "/a") ++ l)%list.
Proof.
  cbv zeta. split; [vm_compute; reflexivity|].
  pose proof (Put_resets_own_children
                (Put (V := nat) New "/a/b/c" (Some 1%nat)) "/a/b"
                (Some 2%nat)) as [H1 H2].
  split.
  - exact H1.
  - apply H2. intros E. vm_compute in E. discriminate.
Defined.

(** C7: [Put(p, v)] changes nothing under a key that is neither
    [normalize(p)] nor the key of a directory above it. *)
Theorem Put_frame_other_keys {V : Type} (t : Tree V) (p : string)
  (v : option V) (k : string) :
  k <> normalize p -> ~ ancestor_key k (normalize p) ->
  index (Put t p v) !! k = index t !! k.
Proof. apply Put_frame. Qed.

Lemma Put_frame_other_keys_witness :
  let t := Put (V := nat) New "/x" (Some 1%nat) in
  index (Put t "/a/b" (Some 2%nat)) !! "/x" = index t !! "/x".
Proof.
  cbv zeta. apply Put_frame_other_keys.
  - intros E. vm_compute in E. discriminate.
  - intros [rest E]. vm_compute in E. discriminate.
Defined.

(** C8: [normalize] is idempotent, and its result is always a clean
    absolute path. *)
Theorem normalize_idempotent (p : string) :
  normalize p = normalize (normalize p) /\ IsClean (normalize p).
Proof.
  split; [|apply normalize_clean].
  destruct (normalize_clean p) as (segs & Hsegs & ->).
  symmetry. now apply normalize_render.
Qed.

(** C9: an entry is a directory exactly when it has children; its mode is
    [ModeDir | 0555] then and [0444] otherwise; its size is 512 times the
    number of its children, as long as that fits an [int64]. *)
Theorem Entry_metadata {V : Type} (e : Entry V) :
  (IsDir e = true <-> (1 <= List.length (Children e))%nat) /\
  Mode e = (if (1 <=? List.length (Children e))%nat
            then 2 ^ 31 + 365 else 292)%Z /\
  ((Z.of_nat (List.length (Children e)) < 2 ^ 54)%Z ->
   Size e = (512 * Z.of_nat (List.length (Children e)))%Z).
Proof.
  split; [|split].
  - unfold IsDir, Mode. destruct (Children e) as [|c l]; cbn [List.length].
    + split; [discriminate|lia].
    + split; [lia|reflexivity].
  - unfold Mode. destruct (Children e) as [|c l]; reflexivity.
  - intros H. unfold Size, sizeOfEntry.
    rewrite (int64_small (Z.of_nat _)) by lia.
    apply int64_small. lia.
Qed.

Lemma Entry_metadata_witness :
  Size (mkEntry (V := nat) "/a" [mkEntry "/a/b" [] None] None) = 512%Z.
Proof.
  apply (proj2 (proj2 (Entry_metadata
    (mkEntry (V := nat) "/a" [mkEntry "/a/b" [] None] None)))).
  cbn. lia.
Defined.

(** C10: after every [Put] the index holds a root entry under the empty
    key, named by the empty string and without a value; it is not the
    entry of the key [/], a key that is held only if a name normalizing
    to [/] was put; [normalize] yields
    rooted strings, so that no [Get] returns the root entry; and
    [LongestPrefix] always finds an entry, the root entry when no other
    proper prefix of the normalized query is a key. *)
Theorem root_entry_under_empty_key {V : Type}
  (ops : list (string * option V)) (p : string) (v : option V) :
  let t := Put (run ops) p v in
  exists r,
    index t !! "" = Some r /\ FullName r = "" /\ Value r = None /\
    index t !! "/" <> Some r /\
    ((forall q w, In (q, w) (ops ++ [(p, v)]) -> normalize q <> "/") ->
     index t !! "/" = None) /\
    (forall q, (exists x, normalize q = "/" ++ x) /\
               forall e, Get t q = (e, true) -> e <> r) /\
    (forall q, snd (LongestPrefix t q) = true /\
       ((forall k, k <> "" -> str_prefix k (normalize q) ->
                   k <> normalize q -> index t !! k = None) ->
        LongestPrefix t q = (r, true))).
Proof.
  cbv zeta. rewrite <- run_snoc.
  destruct (run_present (ops ++ [(p, v)]) p v "") as (r & Hr & Hname & Hval).
  { apply in_or_app. right. now left. }
  { apply ancestor_key_root. }
  exists r. split; [assumption|]. split; [assumption|]. split.
  { rewrite Hval. apply last_value_none.
    intros q w _. apply normalize_not_empty. }
  split.
  { intros E. apply (run_keys_named _ _ _) in E. rewrite Hname in E.
    discriminate. }
  split; [apply run_slash_absent|]. split.
  - intros q. split; [apply normalize_rooted|].
    intros e He <-. apply Get_Some in He.
    apply (run_keys_named _ _ _) in He. rewrite Hname in He.
    symmetry in He. now apply normalize_not_empty in He.
  - intros q. unfold LongestPrefix.
    apply longest_loop_root; [assumption|apply normalize_rooted].
Qed.

Lemma root_entry_under_empty_key_witness :
  let t := Put (V := nat) (run []) "/a" (Some 1%nat) in
  index t !! "/" = None /\
  LongestPrefix t "/x"
  = (mkEntry "" [mkEntry "/a" [] (Some 1%nat)] None, true).
Proof.
  cbv zeta.
  destruct (root_entry_under_empty_key (V := nat) [] "/a" (Some 1%nat))
    as (r & Hr & _ & _ & _ & Hslash & _ & Hlp).
  split.
  - apply Hslash. intros q w [[= <- <-]|[]]. vm_compute. discriminate.
  - destruct (Hlp "/x") as [_ H]. rewrite H.
    + vm_compute in Hr. injection Hr as <-. reflexivity.
    + intros k Hne [b Hb] Hk. vm_compute in Hb.
      destruct k as [|c1 [|c2 [|c3 k]]].
      * congruence.
      * cbn in Hb. injection Hb as <- _. vm_compute. reflexivity.
      * cbn in Hb. injection Hb as <- <- _. exfalso. apply Hk.
        vm_compute. reflexivity.
      * cbn in Hb. discriminate.
Defined.

(** ** Cleaning a path in two parts *)

Section CleanCompose.

(** What the loop of [Clean] looks ahead at is the same when the input
    goes on with a slash. *)
Lemma ends_elem_app (r y : string) :
  path.ends_elem (r ++ String "/" y) = path.ends_elem r.
Proof. destruct r; reflexivity. Qed.

Lemma starts_with_dot_app (r y : string) :
  path.starts_with dot (r ++ String "/" y) = path.starts_with dot r.
Proof. destruct r; reflexivity. Qed.

Lemma elem_of_app_slash (r y : string) :
  path.elem_of (r ++ String "/" y) = path.elem_of r.
Proof.
  induction r as [|c r IH]; [reflexivity|].
  cbn [String.append path.elem_of]. now rewrite IH.
Qed.

Lemma after_elem_app_slash (r y : string) :
  path.after_elem (r ++ String "/" y) = path.after_elem r ++ String "/" y.
Proof.
  induction r as [|c r IH]; [reflexivity|].
  cbn [String.append path.after_elem]. rewrite IH.
  destruct (Ascii.eqb c slash); reflexivity.
Qed.

(** On a rooted path the loop of [Clean] may stop before a slash and go
    on from the buffer it has. *)
Lemma clean_loop_app (y rest : string) : forall out dotdot,
  path.clean_loop true (rest ++ String "/" y) out dotdot
  = path.clean_loop true (String "/" y) (path.clean_loop true rest out dotdot)
      dotdot.
Proof.
  induction rest as [rest IH] using len_ind. intros out dotdot.
  destruct rest as [|c rest'].
  - now rewrite clean_loop_nil.
  - assert (len rest' < len (String c rest'))%nat as Hlt
      by (unfold len; simpl; lia).
    cbn [String.append].
    rewrite (path.clean_loop_equation_2 true c (rest' ++ String "/" y)).
    rewrite (path.clean_loop_equation_2 true c rest').
    rewrite ends_elem_app, starts_with_dot_app.
    rewrite elem_of_app_slash, after_elem_app_slash.
    destruct (Ascii.eqb c slash); [now apply IH|].
    destruct (Ascii.eqb c dot && path.ends_elem rest'); [now apply IH|].
    destruct rest' as [|c' rest''].
    + cbn [path.starts_with andb]. rewrite andb_false_r. cbv zeta.
      cbn [path.after_elem]. apply (IH ""). unfold len. simpl. lia.
    + cbn [String.append path.tail]. rewrite ends_elem_app.
      assert (len rest'' < len (String c (String c' rest'')))%nat
        by (unfold len; simpl; lia).
      destruct (Ascii.eqb c dot && path.starts_with dot (String c' rest'')
                && path.ends_elem rest'').
      * destruct (dotdot <? len out)%nat; cbv zeta; cbn [negb];
          now apply IH.
      * cbv zeta. apply IH.
        pose proof (len_path_after (String c' rest'')).
        unfold len in *. simpl in *. lia.
Qed.

(** [normalize] of a name made of two parts joined by a slash: the loop
    of [Clean] reads the second part from the normalized first part. *)
Lemma normalize_join (p q : string) :
  normalize (p ++ "/" ++ q) = path.clean_loop true q (normalize p) 1.
Proof.
  rewrite !normalize_loop. change ("/" ++ q) with (String "/" q).
  rewrite clean_loop_app, path.clean_loop_equation_2.
  reflexivity.
Qed.

End CleanCompose.

(** ** The last element of a path *)

Section BaseFacts.

Lemma byte_at_last (b : string) (x : ascii) :
  byte_at (b ++ String x "") (len (b ++ String x "") - 1) = x.
Proof.
  rewrite len_app. change (len (String x "")) with 1%nat.
  replace (len b + 1 - 1)%nat with (len b + 0)%nat by lia.
  now rewrite byte_at_app_r.
Qed.

(** Nothing is stripped from a path that does not end with a slash. *)
Lemma strip_slashes_id (b : string) (x : ascii) :
  x <> slash ->
  path.strip_slashes (b ++ String x "") = b ++ String x "".
Proof.
  intros Hx. destruct (b ++ String x "") as [|c d] eqn:E.
  - destruct b; discriminate.
  - rewrite path.strip_slashes_equation_2. rewrite <- E.
    rewrite byte_at_last. apply Ascii.eqb_neq in Hx. now rewrite Hx.
Qed.

Lemma last_byte_no_slash (s : string) :
  s <> "" -> has_slash s = false ->
  exists b x, s = b ++ String x "" /\ x <> slash.
Proof.
  intros Hne Hs. destruct (snoc_inv s Hne) as (b & x & ->).
  exists b, x. split; [reflexivity|].
  rewrite has_slash_app in Hs. apply orb_false_iff in Hs as [_ Hx].
  cbn [has_slash] in Hx. rewrite orb_false_r in Hx.
  now apply Ascii.eqb_neq.
Qed.

(** [Base] of a path that ends with a proper element after a slash. *)
Lemma Base_last (a s : string) :
  s <> "" -> has_slash s = false -> path.Base (a ++ "/" ++ s) = s.
Proof.
  intros Hne Hs.
  destruct (last_byte_no_slash s Hne Hs) as (b & x & Es & Hx).
  assert (path.strip_slashes (a ++ "/" ++ s) = a ++ "/" ++ s) as Estrip.
  { rewrite Es, <- !sapp_assoc. now apply strip_slashes_id. }
  unfold path.Base. destruct (a ++ "/" ++ s) as [|c d] eqn:E.
  { destruct a; discriminate. }
  cbv zeta. rewrite Estrip. rewrite <- E, (LastIndexByte_app a s Hs).
  replace (0 <=? Z.of_nat (len a))%Z with true
    by (symmetry; apply Z.leb_le; lia).
  replace (Z.to_nat (Z.of_nat (len a) + 1)) with (len (a ++ "/")).
  2:{ rewrite len_app. change (len "/") with 1%nat. lia. }
  rewrite <- sapp_assoc, slice_from_app.
  destruct s; [congruence|reflexivity].
Qed.

Lemma Base_render (segs : list string) (s : string) :
  good_seg s -> path.Base (render (segs ++ [s])) = s.
Proof.
  intros (Hne & Hs & _). rewrite render_snoc. now apply Base_last.
Qed.

End BaseFacts.

(** ** Further properties of [normalize] *)

(** X1: a leading slash makes no difference to [normalize]: a name
    relative to the root and the absolute name are the same key. *)
Theorem normalize_leading_slash (p : string) :
  normalize ("/" ++ p) = normalize p.
Proof.
  rewrite !normalize_loop. cbn [String.append].
  now rewrite path.clean_loop_equation_2.
Qed.

(** X2: a trailing slash and a trailing [/.] make no difference to
    [normalize]. *)
Theorem normalize_trailing (p : string) :
  normalize (p ++ "/") = normalize p /\ normalize (p ++ "/.") = normalize p.
Proof.
  split.
  - change "/" with ("/" ++ ""). rewrite normalize_join.
    apply clean_loop_nil.
  - change "/." with ("/" ++ "."). rewrite normalize_join.
    rewrite path.clean_loop_equation_2. cbn. apply clean_loop_nil.
Qed.

(** X3: a trailing [/..] moves [normalize] to the parent directory: the
    last element of the normalized name goes, and the root stays the
    root. *)
Theorem normalize_dotdot (p : string) (segs : list string) :
  Forall good_seg segs -> normalize p = render segs ->
  normalize (p ++ "/..") = render (removelast segs).
Proof.
  intros Hsegs E. change "/.." with ("/" ++ ".."). rewrite normalize_join, E.
  rewrite path.clean_loop_equation_2.
  change (Ascii.eqb "." slash) with false.
  change (Ascii.eqb "." dot && path.ends_elem ".") with false.
  change (Ascii.eqb "." dot && path.starts_with dot "."
          && path.ends_elem (path.tail ".")) with true.
  cbv iota. cbn [path.tail negb].
  destruct segs as [|s0 segs0].
  - cbn. apply clean_loop_nil.
  - assert (s0 :: segs0 <> []) as Hne by discriminate.
    destruct (exists_last Hne) as (segs' & s & Es). rewrite Es in *.
    apply Forall_app in Hsegs as [_ Hs].
    apply Forall_cons_iff in Hs as [Hs _].
    assert ((1 <? len (render (segs' ++ [s])))%nat = true) as ->.
    { apply Nat.ltb_lt. rewrite render_snoc, !len_app.
      change (len "/") with 1%nat. destruct Hs as (Hs & _).
      assert (1 <= len s)%nat
        by (destruct s; [congruence|]; unfold len; simpl; lia).
      lia. }
    cbv zeta. rewrite (backtrack_render segs' s Hs), clean_loop_nil.
    now rewrite removelast_last.
Qed.

Lemma normalize_dotdot_witness :
  normalize ("/a/b" ++ "/..") = render (removelast ["a"; "b"]).
Proof.
  apply normalize_dotdot.
  - repeat constructor; try discriminate.
  - vm_compute. reflexivity.
Defined.

(** X4: in a name joined from two parts by a slash, [normalize] sees only
    the normalized first part: names of the same directory give the same
    key for every path below them. *)
Theorem normalize_join_congruence (p p' q : string) :
  normalize p = normalize p' ->
  normalize (p ++ "/" ++ q) = normalize (p' ++ "/" ++ q).
Proof. intros E. now rewrite !normalize_join, E. Qed.

Lemma normalize_join_congruence_witness :
  normalize ("a/./b/" ++ "/" ++ "c") = normalize ("/x/../a//b" ++ "/" ++ "c").
Proof.
  apply normalize_join_congruence. vm_compute. reflexivity.
Defined.

(** ** More on the loops *)

Section MoreLoopFacts.

Context {V : Type}.
Implicit Types (idx : gmap string (Entry V)) (t : Tree V).
Implicit Types (k dir lastPath p q : string) (v : option V).

Lemma lookup_total_eq idx idx' k :
  idx !! k = idx' !! k -> idx !!! k = idx' !!! k.
Proof. intros H. now rewrite !lookup_total_alt, H. Qed.

(** A key above the directory part of a path is above the path. *)
Lemma ancestor_key_chop k dir :
  dir_like dir -> dir <> "" ->
  ancestor_key k (fst (path.Split (chop dir))) -> ancestor_key k dir.
Proof.
  intros Hdir Hne Hk. apply ancestor_key_Split in Hk as [rest Hk].
  exists (rest ++ "/"). rewrite (dir_like_chop dir Hdir Hne) at 1.
  rewrite Hk. now rewrite !sapp_assoc.
Qed.

(** A key above [dir] is [dir] without its slash or lies above that. *)
Lemma ancestor_key_step k dir :
  dir_like dir -> ancestor_key k dir ->
  k = chop dir \/ ancestor_key k (fst (path.Split (chop dir))).
Proof.
  intros Hdir [rest Hk].
  destruct (String.eqb_spec rest "") as [-> | Hrest].
  - left. rewrite Hk. symmetry. apply chop_snoc.
  - right. destruct (snoc_inv rest Hrest) as (rest' & x & ->).
    assert (chop dir = k ++ "/" ++ rest') as ->.
    { rewrite Hk. rewrite <- !sapp_assoc. apply chop_snoc. }
    rewrite Split_fst_app. now eexists.
Qed.

(** The loop of [Put] adds no key but those above its variable. *)
Lemma put_loop_dom dir : forall idx lastPath k,
  dir_like dir -> is_Some (put_loop idx lastPath dir !! k) ->
  is_Some (idx !! k) \/ ancestor_key k dir.
Proof.
  induction dir as [|dir Hne IH] using dir_ind;
    intros idx lastPath k Hdir Hk.
  - rewrite put_loop_nil in Hk. now left.
  - rewrite (put_loop_cons _ _ _ Hne) in Hk.
    apply IH in Hk; [|apply dir_like_Split]. destruct Hk as [Hk | Hk].
    + destruct (decide (chop dir = k)) as [<-|Hk'].
      * right. exists "". now rewrite (dir_like_chop dir Hdir Hne) at 1.
      * left. now rewrite lookup_insert_ne in Hk.
    + right. now apply ancestor_key_chop.
Qed.

(** Each turn of the loop of [Put] appends one child, the entry of the
    path it comes from, which later turns leave alone. *)
Lemma put_loop_child dir : forall idx lastPath k,
  dir = fst (path.Split lastPath) ->
  FullName (idx !!! lastPath) = lastPath ->
  ancestor_key k dir ->
  exists s,
    has_slash s = false /\
    (k ++ "/" ++ s = lastPath \/ ancestor_key (k ++ "/" ++ s) lastPath) /\
    Children (put_loop idx lastPath dir !!! k)
    = (Children (idx !!! k)
       ++ [put_loop idx lastPath dir !!! (k +:+ "/" +:+ s)])%list /\
    FullName (put_loop idx lastPath dir !!! (k ++ "/" ++ s))
    = k ++ "/" ++ s.
Proof.
  induction dir as [|dir Hne IH] using dir_ind;
    intros idx lastPath k Edir Hname Hk.
  - destruct Hk as [rest Hk]. destruct k; discriminate.
  - assert (dir_like dir) as Hdir by (rewrite Edir; apply dir_like_Split).
    pose proof (dir_like_chop dir Hdir Hne) as Ea.
    destruct (Split_inv lastPath) as (Elp & Hfile & _). rewrite <- Edir in Elp.
    pose proof (len_chop dir Hne) as Hlen1.
    pose proof (len_Split_fst (chop dir)) as Hlen2.
    assert (len dir <= len lastPath)%nat as Hlen3
      by (rewrite Edir; apply len_Split_fst).
    rewrite (put_loop_cons _ _ _ Hne).
    set (idx' := <[chop dir := put_step idx lastPath (chop dir)]> idx).
    destruct (ancestor_key_step k dir Hdir Hk) as [-> | Hk'].
    + exists (snd (path.Split lastPath)).
      assert (chop dir ++ "/" ++ snd (path.Split lastPath) = lastPath) as E.
      { rewrite Elp at 2. rewrite Ea at 2. now rewrite sapp_assoc. }
      rewrite E. split; [assumption|]. split; [now left|].
      assert (put_loop idx' (chop dir) (fst (path.Split (chop dir)))
              !!! lastPath = idx !!! lastPath) as ->.
      { apply lookup_total_eq. rewrite put_loop_frame_len by lia.
        apply lookup_insert_ne. intros E'. rewrite E' in Hlen1. lia. }
      split; [|assumption].
      rewrite (lookup_total_eq _ idx' (chop dir)).
      2:{ now apply put_loop_frame_len. }
      subst idx'. now rewrite lookup_total_insert_eq.
    + destruct (IH idx' (chop dir) k eq_refl) as (s & Hs & Hnext & Hc & Hn).
      { subst idx'. now rewrite lookup_total_insert_eq. }
      { assumption. }
      exists s. split; [assumption|]. split; [|split; [|assumption]].
      * right. assert (ancestor_key (chop dir) lastPath) as [r Hr].
        { exists (snd (path.Split lastPath)).
          rewrite Elp at 1. rewrite Ea at 1. now rewrite sapp_assoc. }
        destruct Hnext as [-> | [r' Hr']]; [now exists r|].
        exists (r' ++ "/" ++ r). rewrite Hr, Hr'. now rewrite !sapp_assoc.
      * rewrite Hc. f_equal. f_equal. subst idx'.
        apply lookup_total_insert_ne. intros E'.
        apply ancestor_key_shorter in Hk'. rewrite E' in *. lia.
Qed.

(** The walk of [LongestPrefix] finds nothing in an empty index. *)
Lemma longest_loop_empty dir :
  longest_loop (V := V) ∅ dir = (zeroEntry, false).
Proof.
  induction dir as [|dir Hne IH] using dir_ind.
  - apply longest_loop_nil.
  - rewrite (longest_loop_cons _ _ Hne), lookup_empty. exact IH.
Qed.

(** A hit of the walk is stored under a proper prefix of its variable. *)
Lemma longest_loop_prefix dir : forall idx e,
  longest_loop idx dir = (e, true) ->
  exists k, idx !! k = Some e /\ str_prefix k dir /\ (len k < len dir)%nat.
Proof.
  induction dir as [|dir Hne IH] using dir_ind; intros idx e H.
  - rewrite longest_loop_nil in H. discriminate.
  - rewrite (longest_loop_cons _ _ Hne) in H.
    pose proof (len_chop dir Hne).
    destruct (snoc_inv dir Hne) as (a & c & Ea).
    assert (chop dir = a) as Ec by (rewrite Ea; apply chop_snoc).
    destruct (idx !! chop dir) as [e'|] eqn:E.
    + injection H as ->. exists (chop dir). split; [assumption|].
      split; [|assumption]. exists (String c ""). now rewrite Ec.
    + destruct (IH _ _ H) as (k & Hk & [b Hb] & Hlen).
      pose proof (len_Split_fst (chop dir)).
      exists k. split; [assumption|]. split; [|lia].
      destruct (Split_inv (chop dir)) as (Es & _ & _).
      exists (b ++ snd (path.Split (chop dir)) ++ String c "").
      rewrite Ea at 1. rewrite <- Ec. rewrite Es at 1. rewrite Hb.
      now rewrite !sapp_assoc.
Qed.

(** From a directory the walk tests the keys above it from the longest
    down: it returns the entry of the longest one in the index, and
    reports not found when none is. *)
Lemma longest_loop_ancestor dir : forall idx,
  dir_like dir ->
  (forall k e, ancestor_key k dir -> idx !! k = Some e ->
     (forall k', ancestor_key k' dir -> (len k < len k')%nat ->
                 idx !! k' = None) ->
     longest_loop idx dir = (e, true)) /\
  ((forall k, ancestor_key k dir -> idx !! k = None) ->
   longest_loop idx dir = (zeroEntry, false)).
Proof.
  induction dir as [|dir Hne IH] using dir_ind; intros idx Hdir.
  - split.
    + intros k e [rest Hk]. destruct k; discriminate.
    + intros _. apply longest_loop_nil.
  - rewrite (longest_loop_cons _ _ Hne).
    destruct (IH idx (dir_like_Split _)) as [IH1 IH2].
    assert (ancestor_key (chop dir) dir) as Ha.
    { exists "". now rewrite (dir_like_chop dir Hdir Hne) at 1. }
    pose proof (len_Split_fst (chop dir)) as Hlen.
    split.
    + intros k e Hk He Hmax.
      destruct (ancestor_key_step k dir Hdir Hk) as [-> | Hk'].
      * now rewrite He.
      * rewrite (Hmax (chop dir) Ha).
        2:{ apply ancestor_key_shorter in Hk'. lia. }
        apply (IH1 k e Hk' He). intros k' Hk'' Hlt.
        apply Hmax; [|assumption]. now apply ancestor_key_chop.
    + intros Hnone. rewrite (Hnone _ Ha). apply IH2.
      intros k Hk. apply Hnone. now apply ancestor_key_chop.
Qed.

End MoreLoopFacts.

(** ** More on trees *)

Section MoreTreeFacts.

Context {V : Type}.
Implicit Types (t : Tree V) (ops : list (string * option V)).
Implicit Types (k p q : string) (v : option V).

Lemma Get_fst t q : fst (Get t q) = index t !!! normalize q.
Proof.
  unfold Get. rewrite lookup_total_alt.
  now destruct (index t !! normalize q).
Qed.

Lemma Get_snd t q :
  snd (Get t q) = true <-> is_Some (index t !! normalize q).
Proof.
  unfold Get. destruct (index t !! normalize q) as [e|]; cbn.
  - split; eauto.
  - split; [discriminate|]. intros [e He]. discriminate.
Qed.

Lemma Get_found t q e :
  index t !! normalize q = Some e -> Get t q = (e, true).
Proof. intros H. unfold Get. now rewrite H. Qed.

(** The keys after a [Put]: those before, the name, and the keys of the
    directories above it. *)
Lemma Put_dom t p v k :
  is_Some (index (Put t p v) !! k) <->
  is_Some (index t !! k) \/ k = normalize p \/ ancestor_key k (normalize p).
Proof.
  split.
  - unfold Put. cbn [index]. intros H.
    apply put_loop_dom in H; [|apply dir_like_Split].
    destruct H as [H | H].
    + destruct (decide (normalize p = k)) as [<-|Hne]; [auto|].
      rewrite lookup_insert_ne in H by assumption. auto.
    + right. right. exact (proj2 (ancestor_key_Split _ _) H).
  - intros [H | [-> | H]].
    + now apply Put_is_Some.
    + rewrite Put_target. eauto.
    + destruct (Put_present t p v k H) as (e & He & _). eauto.
Qed.

Lemma run_dom ops k :
  is_Some (index (run ops) !! k) <->
  exists p v, In (p, v) ops /\
              (k = normalize p \/ ancestor_key k (normalize p)).
Proof.
  induction ops as [|[p v] ops IH] using rev_ind.
  - cbn. rewrite lookup_empty. split.
    + intros [e He]. discriminate.
    + intros (p & v & [] & _).
  - rewrite run_snoc, Put_dom, IH. split.
    + intros [(p' & v' & Hin & H) | H].
      * exists p', v'. split; [apply in_or_app; now left|assumption].
      * exists p, v. split; [apply in_or_app; right; now left|assumption].
    + intros (p' & v' & Hin & H).
      apply in_app_or in Hin as [Hin | [[= -> ->] | []]].
      * left. now exists p', v'.
      * now right.
Qed.

(** Every key of the index is the empty string or a clean path. *)
Lemma run_keys_clean ops k :
  is_Some (index (run ops) !! k) -> k = "" \/ IsClean k.
Proof.
  intros H. apply run_dom in H as (p & v & _ & [-> | H]).
  - right. apply normalize_clean.
  - destruct (normalize_clean p) as (segs & Hsegs & E). rewrite E in H.
    now apply (ancestor_key_render segs).
Qed.

(** [Put] appends to the children of every directory above the name one
    entry: the entry the tree now holds for the next path down to the
    name. *)
Lemma Put_ancestor_child t p v k :
  ancestor_key k (normalize p) ->
  exists s,
    has_slash s = false /\
    (k ++ "/" ++ s = normalize p \/ ancestor_key (k ++ "/" ++ s) (normalize p)) /\
    Children (index (Put t p v) !!! k)
    = (Children (index t !!! k)
       ++ [index (Put t p v) !!! (k +:+ "/" +:+ s)])%list /\
    FullName (index (Put t p v) !!! (k ++ "/" ++ s)) = k ++ "/" ++ s.
Proof.
  intros Hk. unfold Put. cbn [index].
  set (n := normalize p) in *.
  set (idx := <[n := mkEntry n [] v]> (index t)).
  destruct (put_loop_child (fst (path.Split n)) idx n k eq_refl)
    as (s & Hs & Hnext & Hc & Hn).
  { subst idx. now rewrite lookup_total_insert_eq. }
  { exact (proj1 (ancestor_key_Split k n) Hk). }
  exists s. split; [assumption|]. split; [assumption|].
  split; [|assumption]. rewrite Hc. f_equal. f_equal. subst idx.
  apply lookup_total_insert_ne. intros E.
  apply ancestor_key_shorter in Hk. rewrite E in Hk. lia.
Qed.

Lemma root_children_length ops :
  List.length (Children (index (run ops) !!! "")) = List.length ops.
Proof.
  induction ops as [|[p v] ops IH] using rev_ind.
  - cbn. now rewrite lookup_total_empty.
  - rewrite run_snoc.
    destruct (Put_ancestor_child (run ops) p v "" (ancestor_key_root p))
      as (s & _ & _ & -> & _).
    rewrite !length_app, IH. reflexivity.
Qed.

Lemma IsDir_snoc (e c : Entry V) (l : list (Entry V)) :
  Children e = (l ++ [c])%list -> IsDir e = true.
Proof.
  intros E. unfold IsDir, Mode. rewrite E, length_app. cbn [List.length].
  replace (0 <? List.length l + 1)%nat with true
    by (symmetry; apply Nat.ltb_lt; lia).
  reflexivity.
Qed.

(** A key above a name is [""] or a proper prefix of the name that the
    name continues with a slash. *)
Lemma ancestor_key_byte k n :
  ancestor_key k n -> byte_at n (len k) = slash.
Proof.
  intros [rest ->]. rewrite <- (Nat.add_0_r (len k)).
  now rewrite byte_at_app_r.
Qed.

(** [LongestPrefix] returns the entry of the longest key of a directory
    above the name, when it gets that far. *)
Lemma LongestPrefix_ancestor t name k e :
  index t !! chop (normalize name) = None \/ chop (normalize name) = k ->
  ancestor_key k (normalize name) ->
  index t !! k = Some e ->
  (forall k', ancestor_key k' (normalize name) -> (len k < len k')%nat ->
              index t !! k' = None) ->
  LongestPrefix t name = (e, true).
Proof.
  intros Hfirst Hk He Hmax. unfold LongestPrefix.
  pose proof (normalize_not_empty name) as Hne.
  set (n := normalize name) in *.
  rewrite (longest_loop_cons _ _ Hne).
  destruct (decide (chop n = k)) as [E|Hneq]; [now rewrite E, He|].
  destruct Hfirst as [-> | E]; [|contradiction].
  destruct (snoc_inv n Hne) as (a & c & Ea).
  assert (chop n = a) as Ec by (rewrite Ea; apply chop_snoc).
  assert (forall k', ancestor_key k' a -> ancestor_key k' n) as Hup.
  { intros k' [r ->]. exists (r ++ String c "").
    rewrite Ea. now rewrite !sapp_assoc. }
  assert (ancestor_key k a) as Hka.
  { destruct Hk as [rest Hk].
    destruct (String.eqb_spec rest "") as [-> | Hrest].
    - exfalso. apply Hneq. rewrite Hk. apply chop_snoc.
    - destruct (snoc_inv rest Hrest) as (rest' & x & ->).
      exists rest'. rewrite <- Ec, Hk. rewrite <- !sapp_assoc.
      apply chop_snoc. }
  rewrite Ec.
  destruct (longest_loop_ancestor (fst (path.Split a)) (index t)
              (dir_like_Split a)) as [H _].
  apply (H k e);
    [exact (proj1 (ancestor_key_Split k a) Hka)|assumption|].
  intros k' Hk' Hlt. apply Hmax; [|assumption].
  apply Hup. exact (proj2 (ancestor_key_Split k' a) Hk').
Qed.

End MoreTreeFacts.

(** ** Further properties of the package *)

(** X5: the [Name] of an entry that [Get] finds is the last element of
    the normalized name, [/] for the name [/]; the root entry that [Put]
    stores under the empty key has the name [.]. *)
Theorem Name_of_entries {V : Type} (ops : list (string * option V)) :
  (forall q e segs s,
     Get (run ops) q = (e, true) -> good_seg s ->
     normalize q = render (segs ++ [s]) -> Name e = s) /\
  (forall q e, Get (run ops) q = (e, true) -> normalize q = "/" ->
               Name e = "/") /\
  (forall r, index (run ops) !! "" = Some r -> Name r = ".").
Proof.
  split; [|split].
  - intros q e segs s He Hs Hq. apply Get_Some in He.
    unfold Name. rewrite (run_keys_named ops _ _ He), Hq.
    now apply Base_render.
  - intros q e He Hq. apply Get_Some in He.
    unfold Name. now rewrite (run_keys_named ops _ _ He), Hq.
  - intros r Hr. unfold Name. now rewrite (run_keys_named ops _ _ Hr).
Qed.

Lemma Name_of_entries_witness :
  Name (mkEntry (V := nat) "/a/bc" [] (Some 1%nat)) = "bc".
Proof.
  apply (proj1 (Name_of_entries [("/a/bc", Some 1%nat)]) "a/bc" _ ["a"] "bc").
  - vm_compute. reflexivity.
  - repeat split; discriminate.
  - vm_compute. reflexivity.
Defined.

(** X6: [Get(q)] finds an entry exactly when [normalize(q)] is the
    normalized name of some [Put], or the key of a directory above one;
    since that key is never empty for [Get], the root is not among
    them. *)
Theorem Get_found_iff {V : Type} (ops : list (string * option V))
  (q : string) :
  snd (Get (run ops) q) = true <->
  exists p v, In (p, v) ops /\
    (normalize q = normalize p \/
     ancestor_key (normalize q) (normalize p)).
Proof. rewrite Get_snd. apply run_dom. Qed.

Lemma Get_found_iff_witness :
  snd (Get (run [("/a/b/c", Some 1%nat)]) "a/b/") = true.
Proof.
  apply Get_found_iff. exists "/a/b/c", (Some 1%nat).
  split; [now left|]. right. exists "c". vm_compute. reflexivity.
Defined.

(** X7: every key of the index of a tree built by [Put] calls is a clean
    absolute path, or the empty string of the root entry. *)
Theorem index_keys_clean {V : Type} (ops : list (string * option V))
  (k : string) (e : Entry V) :
  index (run ops) !! k = Some e -> k = "" \/ IsClean k.
Proof. intros H. apply (run_keys_clean ops). eauto. Qed.

Lemma index_keys_clean_witness :
  "/a" = "" \/ IsClean "/a".
Proof.
  apply (index_keys_clean [("a/b/../c", Some 1%nat)] "/a"
           (mkEntry "/a" [mkEntry "/a/c" [] (Some 1%nat)] None)).
  vm_compute. reflexivity.
Defined.

(** X8: an entry that [Get(q)] finds is named [normalize(q)] and carries
    the value of the last [Put] whose name normalizes like [q], nil when
    the entry exists only as a directory. *)
Theorem Get_returns_last_put {V : Type} (ops : list (string * option V))
  (q : string) (e : Entry V) :
  Get (run ops) q = (e, true) ->
  FullName e = normalize q /\ Value e = last_value ops (normalize q).
Proof.
  intros H. apply Get_Some in H. split.
  - now apply (run_keys_named ops).
  - rewrite <- run_Value. now rewrite (lookup_total_Some _ _ _ H).
Qed.

Lemma Get_returns_last_put_witness :
  Value (mkEntry (V := nat) "/a" [] (Some 3%nat)) = Some 3%nat.
Proof.
  apply (Get_returns_last_put
           [("/a", Some 1%nat); ("/b", Some 2%nat); ("a/", Some 3%nat)]
           "/a" (mkEntry "/a" [] (Some 3%nat))).
  vm_compute. reflexivity.
Defined.

(** X9: [Put(p, v)] keeps every entry that [Get] found before, and leaves
    the value under every name that does not normalize like [p]. *)
Theorem Put_keeps_others {V : Type} (t : Tree V) (p : string)
  (v : option V) (q : string) :
  (snd (Get t q) = true -> snd (Get (Put t p v) q) = true) /\
  (normalize q <> normalize p ->
   Value (fst (Get (Put t p v) q)) = Value (fst (Get t q))).
Proof.
  split.
  - rewrite !Get_snd. apply Put_is_Some.
  - intros Hq. rewrite !Get_fst, Put_Value.
    destruct (String.eqb_spec (normalize p) (normalize q)); congruence.
Qed.

Lemma Put_keeps_others_witness :
  let t := Put (V := nat) New "/a" (Some 1%nat) in
  snd (Get (Put t "/a/b" (Some 2%nat)) "/a") = true /\
  Value (fst (Get (Put t "/a/b" (Some 2%nat)) "/a")) = Value (fst (Get t "/a")).
Proof.
  cbv zeta.
  destruct (Put_keeps_others (Put (V := nat) New "/a" (Some 1%nat)) "/a/b"
              (Some 2%nat) "/a") as [H1 H2].
  split.
  - apply H1. vm_compute. reflexivity.
  - apply H2. intros E. vm_compute in E. discriminate.
Defined.

(** X10: [Put(p, v)] appends exactly one entry to the children of every
    directory above [normalize(p)], the root entry included: the entry
    that the tree holds, after the call, for the next path down to the
    name, which is an immediate child of the directory. *)
Theorem Put_appends_child {V : Type} (t : Tree V) (p : string)
  (v : option V) (k : string) :
  ancestor_key k (normalize p) ->
  exists s,
    has_slash s = false /\
    (k ++ "/" ++ s = normalize p \/
     ancestor_key (k ++ "/" ++ s) (normalize p)) /\
    Children (index (Put t p v) !!! k)
    = (Children (index t !!! k)
       ++ [index (Put t p v) !!! (k +:+ "/" +:+ s)])%list /\
    FullName (index (Put t p v) !!! (k ++ "/" ++ s)) = k ++ "/" ++ s.
Proof. apply Put_ancestor_child. Qed.

Lemma Put_appends_child_witness :
  exists s,
    has_slash s = false /\
    ("/a" ++ "/" ++ s = normalize "/a/b/c" \/
     ancestor_key ("/a" ++ "/" ++ s) (normalize "/a/b/c")) /\
    Children (index (Put (V := nat) New "/a/b/c" (Some 1%nat)) !!! "/a")
    = (Children (index (New (V := nat)) !!! "/a")
       ++ [index (Put New "/a/b/c" (Some 1%nat)) !!! ("/a" +:+ "/" +:+ s)])%list
    /\
    FullName (index (Put (V := nat) New "/a/b/c" (Some 1%nat))
              !!! ("/a" ++ "/" ++ s)) = "/a" ++ "/" ++ s.
Proof.
  apply Put_appends_child. exists "b/c". vm_compute. reflexivity.
Defined.

(** X11: the root entry has one child for every call of [Put], whatever
    the names: its children are not a set of paths. *)
Theorem root_children_count {V : Type} (ops : list (string * option V)) :
  List.length (Children (index (run ops) !!! "")) = List.length ops.
Proof. apply root_children_length. Qed.

(** X12: right after [Put(p, v)] the entry of [p] is no directory and has
    size 0, whatever it was before, and the entry of every directory
    above it is a directory. *)
Theorem Put_directory_flags {V : Type} (t : Tree V) (p : string)
  (v : option V) :
  IsDir (fst (Get (Put t p v) p)) = false /\
  Size (fst (Get (Put t p v) p)) = 0%Z /\
  forall k, ancestor_key k (normalize p) ->
            IsDir (index (Put t p v) !!! k) = true.
Proof.
  assert (Get (Put t p v) p = (mkEntry (normalize p) [] v, true)) as ->.
  { apply Get_found, Put_target. }
  split; [reflexivity|]. split; [reflexivity|].
  intros k Hk.
  destruct (Put_ancestor_child t p v k Hk) as (s & _ & _ & Hc & _).
  exact (IsDir_snoc _ _ _ Hc).
Qed.

Lemma Put_directory_flags_witness :
  IsDir (index (Put (V := nat) New "/a/b" (Some 1%nat)) !!! "/a") = true.
Proof.
  apply (proj2 (proj2 (Put_directory_flags New "/a/b" (Some 1%nat)))).
  exists "b". vm_compute. reflexivity.
Defined.

(** X13: on a new tree [Get] and [LongestPrefix] find nothing; on a tree
    built by [Put] calls [LongestPrefix] finds an entry for every name as
    soon as there was one [Put]. *)
Theorem LongestPrefix_found_iff {V : Type} (ops : list (string * option V))
  (q : string) :
  Get (New (V := V)) q = (zeroEntry, false) /\
  LongestPrefix (New (V := V)) q = (zeroEntry, false) /\
  (snd (LongestPrefix (run ops) q) = true <-> ops <> []).
Proof.
  split; [|split].
  - unfold Get. cbn [index New]. now rewrite lookup_empty.
  - apply longest_loop_empty.
  - split.
    + intros H ->. unfold LongestPrefix in H. cbn [run fold_left index New] in H.
      rewrite longest_loop_empty in H. discriminate.
    + intros Hne. destruct (exists_last Hne) as (ops' & [p v] & ->).
      destruct (run_present (ops' ++ [(p, v)]) p v "") as (r & Hr & _).
      { apply in_or_app. right. now left. }
      { apply ancestor_key_root. }
      unfold LongestPrefix.
      now apply (longest_loop_root _ _ r Hr (normalize_rooted q)).
Qed.

Lemma LongestPrefix_found_iff_witness :
  snd (LongestPrefix (run [("/a", Some 1%nat)]) "/x/y") = true.
Proof.
  apply (proj2 (proj2 (LongestPrefix_found_iff [("/a", Some 1%nat)] "/x/y"))).
  discriminate.
Defined.

(** X14: an entry that [LongestPrefix(name)] returns is an entry of the
    index, and its name is a proper prefix of [normalize(name)] as a
    string. *)
Theorem LongestPrefix_returns_prefix {V : Type}
  (ops : list (string * option V)) (name : string) (e : Entry V) :
  LongestPrefix (run ops) name = (e, true) ->
  index (run ops) !! FullName e = Some e /\
  exists b, b <> "" /\ normalize name = FullName e ++ b.
Proof.
  unfold LongestPrefix. intros H.
  destruct (longest_loop_prefix _ _ _ H) as (k & Hk & [b Hb] & Hlen).
  rewrite (run_keys_named ops k e Hk). split; [assumption|].
  exists b. split; [|assumption].
  intros ->. rewrite Hb, sapp_nil_r in Hlen. lia.
Qed.

Lemma LongestPrefix_returns_prefix_witness :
  let e := mkEntry "/a/b" [] (Some 1%nat) in
  index (run [("/a/b", Some 1%nat)]) !! FullName e = Some e /\
  exists b, b <> "" /\ normalize "/a/bc/../bc" = FullName e ++ b.
Proof.
  cbv zeta.
  apply (LongestPrefix_returns_prefix [("/a/b", Some 1%nat)] "/a/bc/../bc").
  vm_compute. reflexivity.
Defined.

(** X15: when the normalized name without its last byte is no key of the
    index, or is the key in question, [LongestPrefix] returns the entry
    of the longest key of a directory above the name that the index
    holds. *)
Theorem LongestPrefix_longest_ancestor {V : Type} (t : Tree V)
  (name k : string) (e : Entry V) :
  index t !! chop (normalize name) = None \/ chop (normalize name) = k ->
  ancestor_key k (normalize name) ->
  index t !! k = Some e ->
  (forall k', ancestor_key k' (normalize name) -> (len k < len k')%nat ->
              index t !! k' = None) ->
  LongestPrefix t name = (e, true).
Proof. apply LongestPrefix_ancestor. Qed.

Lemma LongestPrefix_longest_ancestor_witness :
  LongestPrefix (run [("/a/b", Some 1%nat)]) "/a/b/c"
  = (mkEntry "/a/b" [] (Some 1%nat), true).
Proof.
  apply (LongestPrefix_longest_ancestor _ _ "/a/b").
  - left. vm_compute. reflexivity.
  - exists "c". vm_compute. reflexivity.
  - vm_compute. reflexivity.
  - intros k' Hk' Hlt.
    pose proof (ancestor_key_shorter _ _ Hk') as Hlen.
    pose proof (ancestor_key_byte _ _ Hk') as Hb.
    change (normalize "/a/b/c") with "/a/b/c" in Hlen, Hb.
    change (len "/a/b") with 4%nat in Hlt.
    change (len "/a/b/c") with 6%nat in Hlen.
    assert (len k' = 5%nat) as E by lia.
    rewrite E in Hb. vm_compute in Hb. discriminate.
Defined.

(** X16: two calls of [Put] with names that normalize differently can be
    swapped without a change to what [Get] finds and to the values it
    returns (the lists of children do depend on the order). *)
Theorem Put_order_independent {V : Type} (t : Tree V) (p q : string)
  (v w : option V) (x : string) :
  normalize p <> normalize q ->
  snd (Get (Put (Put t p v) q w) x) = snd (Get (Put (Put t q w) p v) x) /\
  Value (fst (Get (Put (Put t p v) q w) x))
  = Value (fst (Get (Put (Put t q w) p v) x)).
Proof.
  intros Hpq. split.
  - apply eq_true_iff_eq. rewrite !Get_snd, !Put_dom. tauto.
  - rewrite !Get_fst, !Put_Value.
    destruct (String.eqb_spec (normalize q) (normalize x)) as [E1|_];
      destruct (String.eqb_spec (normalize p) (normalize x)) as [E2|_];
      congruence.
Qed.

Lemma Put_order_independent_witness :
  snd (Get (Put (Put (V := nat) New "/a/b" (Some 1%nat)) "/a" (Some 2%nat)) "/a")
  = snd (Get (Put (Put New "/a" (Some 2%nat)) "/a/b" (Some 1%nat)) "/a") /\
  Value (fst (Get (Put (Put (V := nat) New "/a/b" (Some 1%nat)) "/a"
                    (Some 2%nat)) "/a"))
  = Value (fst (Get (Put (Put New "/a" (Some 2%nat)) "/a/b" (Some 1%nat))
                 "/a")).
Proof.
  apply Put_order_independent. intros E. vm_compute in E. discriminate.
Defined.

(** X17: after a sequence of [Put] calls, [Get(d)] finds every directory
    [d] above a name that was put, the root apart, under the name [d]
    itself, with the value of the last [Put] at [d] and nil when there
    was none. *)
Theorem Get_finds_directories {V : Type} (ops : list (string * option V))
  (p : string) (v : option V) (d : string) :
  In (p, v) ops -> ancestor_key d (normalize p) -> d <> "" ->
  exists e, Get (run ops) d = (e, true) /\ FullName e = d
            /\ Value e = last_value ops d.
Proof. apply Get_ancestor_found. Qed.

Lemma Get_finds_directories_witness :
  exists e, Get (run [("/a/b/c", Some 1%nat)]) "/a/b" = (e, true)
            /\ FullName e = "/a/b"
            /\ Value e = last_value [("/a/b/c", Some 1%nat)] "/a/b".
Proof.
  apply (Get_finds_directories [("/a/b/c", Some 1%nat)] "/a/b/c"
           (Some 1%nat) "/a/b").
  - now left.
  - exists "c". vm_compute. reflexivity.
  - discriminate.
Defined.
